(** * A shallow embedding of the OCR resilience, hOCR, searchable-PDF,
    batch and run-state code of kindle-exporter.

    JavaScript [number]s are IEEE 754 binary64 values (the Standard
    Library's [spec_float]) where the code computes with fractions or
    parses them: the font sizes of the searchable-PDF exporter, the hOCR
    coordinates and the [concurrency] option of the batch OCR. Numbers the
    code keeps integral are [Z] (or [nat] for counters and indices).
    Strings are Rocq [string]s (lists of 8-bit characters, so code units
    below 256); [String.prototype.trim] is modelled on the white space
    among them: TAB, LF, VT, FF, CR, SPACE and NO-BREAK SPACE. *)

From Stdlib Require Import ZArith List String Ascii Bool Lia.
From Stdlib Require Import Floats.SpecFloat.
From Stdlib Require Import Permutation.
From Stdlib Require DecimalPos.
Import ListNotations.

(* ------------------------------------------------------------------ *)
(** ** JavaScript string helpers *)

Module JsString.

(** White space removed by [String.prototype.trim] among the code units
    below 256: TAB, LF, VT, FF, CR, SPACE and NO-BREAK SPACE (160). *)
Definition is_ws (c : ascii) : bool :=
  let n := nat_of_ascii c in
  (Nat.eqb n 9 || Nat.eqb n 10 || Nat.eqb n 11 || Nat.eqb n 12
   || Nat.eqb n 13 || Nat.eqb n 32 || Nat.eqb n 160)%bool.

Fixpoint trim_start (s : string) : string :=
  match s with
  | EmptyString => EmptyString
  | String c s' => if is_ws c then trim_start s' else s
  end.

Definition rev_str (s : string) : string :=
  string_of_list_ascii (rev (list_ascii_of_string s)).

(** [s.trim()] *)
Definition trim (s : string) : string :=
  rev_str (trim_start (rev_str (trim_start s))).

(** [s.length > 0] *)
Definition nonempty (s : string) : bool :=
  negb (Nat.eqb (String.length s) 0).

(** [haystack.includes(needle)] *)
Fixpoint includes (needle haystack : string) : bool :=
  if String.prefix needle haystack then true
  else match haystack with
       | EmptyString => false
       | String _ h' => includes needle h'
       end.

(** [s.toLowerCase()] on ASCII letters. *)
Definition lower_char (c : ascii) : ascii :=
  let n := nat_of_ascii c in
  if (Nat.leb 65 n && Nat.leb n 90)%bool then ascii_of_nat (n + 32) else c.

Fixpoint toLowerCase (s : string) : string :=
  match s with
  | EmptyString => EmptyString
  | String c s' => String (lower_char c) (toLowerCase s')
  end.

End JsString.

(* ------------------------------------------------------------------ *)
(** ** JavaScript numbers *)

Module JsNumber.
Local Open Scope Z_scope.

(** A JavaScript [number]: an IEEE 754 binary64 value. *)
Definition number := spec_float.

Definition add (x y : number) : number := SFadd 53 1024 x y.
Definition sub (x y : number) : number := SFsub 53 1024 x y.
Definition mul (x y : number) : number := SFmul 53 1024 x y.
Definition div (x y : number) : number := SFdiv 53 1024 x y.

(** The number nearest to the integer [z] ([Number(z)]; exact when
    [|z| <= 2^53], Infinity beyond the binary64 range). *)
Definition of_Z (z : Z) : number := binary_normalize 53 1024 z 0 false.

(** The number a decimal literal [n / d] denotes: the double nearest to
    [n / d] (division of two exact integers rounds correctly). *)
Definition lit (n d : Z) : number := div (of_Z n) (of_Z d).

(** [a < b] and [a > b]: false when either is NaN. *)
Definition ltb (a b : number) : bool := SFltb a b.
Definition gtb (a b : number) : bool := SFltb b a.

Definition is_nan (x : number) : bool :=
  match x with S754_nan => true | _ => false end.

(** [Math.min(a, b)] and [Math.max(a, b)]: NaN if either is NaN, and
    [-0] below [+0]. *)
Definition js_min (a b : number) : number :=
  match a, b with
  | S754_nan, _ | _, S754_nan => S754_nan
  | S754_zero sa, S754_zero sb => S754_zero (sa || sb)
  | _, _ => if SFltb b a then b else a
  end.

Definition js_max (a b : number) : number :=
  match a, b with
  | S754_nan, _ | _, S754_nan => S754_nan
  | S754_zero sa, S754_zero sb => S754_zero (sa && sb)
  | _, _ => if SFltb a b then b else a
  end.

(** [Math.ceil(x)]: the least integer not below [x]; [-0] for [x] in
    [(-1, 0)]; zeros, infinities and NaN unchanged. *)
Definition js_ceil (x : number) : number :=
  match x with
  | S754_finite s m e =>
      if Z.leb 0 e then x
      else
        let d := 2 ^ (- e) in
        if s then
          let f := Zpos m / d in
          if Z.eqb f 0 then S754_zero true else of_Z (- f)
        else of_Z ((Zpos m + d - 1) / d)
  | _ => x
  end.

(** [Number.isFinite(x)] *)
Definition is_finite (x : number) : bool :=
  match x with S754_zero _ | S754_finite _ _ _ => true | _ => false end.

(** [+0], a positive number or [+Infinity]. *)
Definition is_nonneg (x : number) : bool :=
  match x with
  | S754_zero false | S754_finite false _ _ | S754_infinity false => true
  | _ => false
  end.

(** [Number.isSafeInteger(x)]: an integer of magnitude at most [2^53 - 1]. *)
Definition isSafeInteger (x : number) : bool :=
  match x with
  | S754_zero _ => true
  | S754_finite _ m e =>
      if Z.leb 0 e then Z.leb (Zpos m * 2 ^ e) (2 ^ 53 - 1)
      else Z.eqb (Z.modulo (Zpos m) (2 ^ (- e))) 0
           && Z.leb (Zpos m / 2 ^ (- e)) (2 ^ 53 - 1)
  | _ => false
  end.

End JsNumber.

(* ------------------------------------------------------------------ *)
(** ** src/ocr/localVision.ts: the retry / circuit-breaker wrapper *)

Module LocalVision.

Local Open Scope Z_scope.

Inductive CircuitState := CLOSED | OPEN | HALF_OPEN.

Definition CircuitState_eqb (a b : CircuitState) : bool :=
  match a, b with
  | CLOSED, CLOSED | OPEN, OPEN | HALF_OPEN, HALF_OPEN => true
  | _, _ => false
  end.

(** The fields of [ModelConfig] that the [ocr] path reads. *)
Record ModelConfig := {
  maxRetries : Z;
  retryDelay : Z;
  circuitBreakerThreshold : Z;
  circuitBreakerTimeout : Z
}.

(** The values set by the constructor of [LocalVisionProvider]. *)
Definition constructor_config : ModelConfig := {|
  maxRetries := 3;
  retryDelay := 1000;
  circuitBreakerThreshold := 5;
  circuitBreakerTimeout := 60000
|}.

(** [OcrStats]; the duration fields and the error-type map are written by
    the code but never read on the [ocr] path, so they are left out. *)
Record OcrStats := {
  totalRequests : Z;
  successfulRequests : Z;
  failedRequests : Z;
  retriedRequests : Z;
  totalRetries : Z
}.

Record CircuitBreaker := {
  state : CircuitState;
  failureCount : Z;
  lastFailureTime : Z;
  nextAttemptTime : Z
}.

(** The mutable part of a [LocalVisionProvider] instance. *)
Record Provider := {
  config : ModelConfig;
  isInitialized : bool;
  stats : OcrStats;
  circuitBreaker : CircuitBreaker
}.

Definition initial_stats : OcrStats := {|
  totalRequests := 0; successfulRequests := 0; failedRequests := 0;
  retriedRequests := 0; totalRetries := 0
|}.

Definition initial_breaker : CircuitBreaker := {|
  state := CLOSED; failureCount := 0; lastFailureTime := 0;
  nextAttemptTime := 0
|}.

(** [new LocalVisionProvider(...)] *)
Definition new_provider : Provider := {|
  config := constructor_config; isInitialized := false;
  stats := initial_stats; circuitBreaker := initial_breaker
|}.

(** Field updates of the records. *)
Definition set_stats (s : OcrStats) (p : Provider) : Provider :=
  {| config := config p; isInitialized := isInitialized p;
     stats := s; circuitBreaker := circuitBreaker p |}.

Definition set_breaker (cb : CircuitBreaker) (p : Provider) : Provider :=
  {| config := config p; isInitialized := isInitialized p;
     stats := stats p; circuitBreaker := cb |}.

Definition set_initialized (p : Provider) : Provider :=
  {| config := config p; isInitialized := true;
     stats := stats p; circuitBreaker := circuitBreaker p |}.

Definition incr_totalRequests (s : OcrStats) : OcrStats :=
  {| totalRequests := totalRequests s + 1;
     successfulRequests := successfulRequests s;
     failedRequests := failedRequests s;
     retriedRequests := retriedRequests s; totalRetries := totalRetries s |}.

Definition incr_successfulRequests (s : OcrStats) : OcrStats :=
  {| totalRequests := totalRequests s;
     successfulRequests := successfulRequests s + 1;
     failedRequests := failedRequests s;
     retriedRequests := retriedRequests s; totalRetries := totalRetries s |}.

Definition incr_failedRequests (s : OcrStats) : OcrStats :=
  {| totalRequests := totalRequests s;
     successfulRequests := successfulRequests s;
     failedRequests := failedRequests s + 1;
     retriedRequests := retriedRequests s; totalRetries := totalRetries s |}.

Definition incr_retriedRequests (s : OcrStats) : OcrStats :=
  {| totalRequests := totalRequests s;
     successfulRequests := successfulRequests s;
     failedRequests := failedRequests s;
     retriedRequests := retriedRequests s + 1; totalRetries := totalRetries s |}.

Definition incr_totalRetries (s : OcrStats) : OcrStats :=
  {| totalRequests := totalRequests s;
     successfulRequests := successfulRequests s;
     failedRequests := failedRequests s;
     retriedRequests := retriedRequests s; totalRetries := totalRetries s + 1 |}.

(** The errors [ocr] can throw. [NullLastError] is the [TypeError] raised
    by [recordFailure(lastError!)] after the retry loop when the loop body
    never ran ([maxRetries < 0]), so that [lastError] is still [null]. *)
Inductive OcrError :=
  | ProviderNotAvailable
  | ImageNotFound
  | CircuitOpen (retry_in_s : Z)
  | ProcessingFailed
  | NullLastError.

Inductive OcrResult := Ok (text : string) | Err (e : OcrError).

(** What the world answers during one [ocr] call. *)
Record CallEnv := {
  ollama_ready : bool;      (** [initialize()] succeeds *)
  image_exists : bool;      (** [existsSync(imagePath)] *)
  clock_check : Z;          (** [Date.now()] in [checkCircuitBreaker] *)
  clock_fail : Z;           (** first [Date.now()] in [recordFailure] *)
  clock_open : Z;           (** second [Date.now()] in [recordFailure] *)
  attempt_result : nat -> option string
    (** attempt [i] of the retry loop ([readFile] + [ollama.chat]):
        [Some content] or [None] when it throws *)
}.

(** [Math.ceil(a / b)] for [b > 0]. *)
Definition ceil_div (a b : Z) : Z := - ((- a) / b).

(** [checkCircuitBreaker()]: [inl] the new breaker, [inr] the thrown error. *)
Definition checkCircuitBreaker (now : Z) (cb : CircuitBreaker)
  : CircuitBreaker + OcrError :=
  match state cb with
  | OPEN =>
      if nextAttemptTime cb <=? now then
        inl {| state := HALF_OPEN; failureCount := 0;
               lastFailureTime := lastFailureTime cb;
               nextAttemptTime := nextAttemptTime cb |}
      else inr (CircuitOpen (ceil_div (nextAttemptTime cb - now) 1000))
  | _ => inl cb
  end.

(** The breaker part of [recordSuccess]. *)
Definition breaker_success (cb : CircuitBreaker) : CircuitBreaker :=
  {| state := if CircuitState_eqb (state cb) HALF_OPEN then CLOSED else state cb;
     failureCount := 0;
     lastFailureTime := lastFailureTime cb;
     nextAttemptTime := nextAttemptTime cb |}.

(** [recordSuccess(duration)] *)
Definition recordSuccess (p : Provider) : Provider :=
  set_breaker (breaker_success (circuitBreaker p))
    (set_stats (incr_successfulRequests (stats p)) p).

(** The breaker part of [recordFailure]. *)
Definition breaker_failure (cfg : ModelConfig) (t1 t2 : Z) (cb : CircuitBreaker)
  : CircuitBreaker :=
  let fc := failureCount cb + 1 in
  if circuitBreakerThreshold cfg <=? fc then
    {| state := OPEN; failureCount := fc; lastFailureTime := t1;
       nextAttemptTime := t2 + circuitBreakerTimeout cfg |}
  else
    {| state := state cb; failureCount := fc; lastFailureTime := t1;
       nextAttemptTime := nextAttemptTime cb |}.

(** [recordFailure(error)] *)
Definition recordFailure (env : CallEnv) (p : Provider) : Provider :=
  set_breaker
    (breaker_failure (config p) (clock_fail env) (clock_open env) (circuitBreaker p))
    (set_stats (incr_failedRequests (stats p)) p).

(** [recordFailure(null)]: the counters and [lastFailureTime] are written,
    then [error.message] throws before the threshold test. *)
Definition recordFailure_null (env : CallEnv) (p : Provider) : Provider :=
  let cb := circuitBreaker p in
  set_breaker
    {| state := state cb; failureCount := failureCount cb + 1;
       lastFailureTime := clock_fail env; nextAttemptTime := nextAttemptTime cb |}
    (set_stats (incr_failedRequests (stats p)) p).

(** The two statements after the retry loop. [lastError] is non-null
    exactly when some attempt failed, i.e. when [retryCount > 0]. *)
Definition after_loop (env : CallEnv) (retryCount : Z) (p : Provider)
  (calls : nat) : OcrResult * Provider * nat :=
  if retryCount =? 0 then (Err NullLastError, recordFailure_null env p, calls)
  else (Err ProcessingFailed, recordFailure env p, calls).

(** The retry loop [for (attempt = 0; attempt <= maxRetries; attempt++)];
    the third component counts the backend attempts made so far. [fuel]
    bounds the iterations; [ocr] gives [maxRetries + 1], which is enough. *)
Fixpoint retry_loop (env : CallEnv) (fuel : nat) (attempt : nat)
  (retryCount : Z) (p : Provider) : OcrResult * Provider * nat :=
  match fuel with
  | O => after_loop env retryCount p attempt
  | S fuel' =>
      if Z.of_nat attempt <=? maxRetries (config p) then
        match attempt_result env attempt with
        | Some content =>
            let p1 := recordSuccess p in
            let p2 := if 0 <? retryCount
                      then set_stats (incr_retriedRequests (stats p1)) p1
                      else p1 in
            (Ok (JsString.trim content), p2, S attempt)
        | None =>
            let p1 := set_stats (incr_totalRetries (stats p)) p in
            if Z.of_nat attempt =? maxRetries (config p) then
              (Err ProcessingFailed, recordFailure env p1, S attempt)
            else retry_loop env fuel' (S attempt) (retryCount + 1) p1
        end
      else after_loop env retryCount p attempt
  end.

(** [async ocr(imagePath)]: the result, the provider afterwards and the
    number of backend attempts made. *)
Definition ocr (env : CallEnv) (p : Provider) : OcrResult * Provider * nat :=
  if negb (isInitialized p) && negb (ollama_ready env) then
    (Err ProviderNotAvailable, p, 0%nat)
  else
    let p0 := set_initialized p in
    if negb (image_exists env) then (Err ImageNotFound, p0, 0%nat)
    else
      match checkCircuitBreaker (clock_check env) (circuitBreaker p0) with
      | inr e => (Err e, p0, 0%nat)
      | inl cb =>
          let p1 := set_stats (incr_totalRequests (stats p0)) (set_breaker cb p0) in
          retry_loop env (S (Z.to_nat (maxRetries (config p1)))) 0 0 p1
      end.

(** A backend that fails every attempt, with a fixed clock. *)
Definition failing_env (t : Z) : CallEnv := {|
  ollama_ready := true; image_exists := true;
  clock_check := t; clock_fail := t; clock_open := t;
  attempt_result := fun _ => None
|}.

(** A backend that fails [k] attempts and then answers [content]. *)
Definition flaky_env (k : nat) (content : string) (t : Z) : CallEnv := {|
  ollama_ready := true; image_exists := true;
  clock_check := t; clock_fail := t; clock_open := t;
  attempt_result := fun i => if Nat.ltb i k then None else Some content
|}.

(** The provider after a sequence of [ocr] calls made one after another. *)
Definition after_call (e : CallEnv) (p : Provider) : Provider :=
  let '(_, p', _) := ocr e p in p'.

Definition after_calls (es : list CallEnv) (p : Provider) : Provider :=
  fold_left (fun q e => after_call e q) es p.

(** A fresh provider after [k] calls at time 0 whose backend always fails. *)
Definition fails (k : nat) : Provider :=
  after_calls (repeat (failing_env 0) k) new_provider.

End LocalVision.

(* ------------------------------------------------------------------ *)
(** ** src/ocr/tesseract.ts: [parseHocr] *)

Module Hocr.

Local Open Scope Z_scope.

Definition chr (n : nat) : ascii := ascii_of_nat n.

Definition is_quote (c : ascii) : bool :=
  (Ascii.eqb c (chr 39) || Ascii.eqb c (chr 34))%bool.

Definition is_digit (c : ascii) : bool :=
  (Nat.leb 48 (nat_of_ascii c) && Nat.leb (nat_of_ascii c) 57)%bool.

(** [pre] followed by the rest of [s]. *)
Definition strip (pre s : string) : option string :=
  if String.prefix pre s then Some (substring (String.length pre) (String.length s) s)
  else None.

(** One quote character, single or double: the class [Q] below, where
    [Q] stands for the regex class of the two quote characters and [NQ]
    for its complement. *)
Definition quote (s : string) : option string :=
  match s with
  | String c s' => if is_quote c then Some s' else None
  | EmptyString => None
  end.

(** [[^X]*] followed by [X]: the characters before the first [X] and what
    follows that [X]; the class excludes [X], so there is no other way to
    match, greedy or lazy. *)
Fixpoint upto (stop : ascii -> bool) (s : string) : option (string * string) :=
  match s with
  | EmptyString => None
  | String c s' =>
      if stop c then Some (EmptyString, s')
      else match upto stop s' with
           | Some (pre, rest) => Some (String c pre, rest)
           | None => None
           end
  end.

(** [[^<]*]: the longest prefix without [<]. *)
Fixpoint span_not_lt (s : string) : string * string :=
  match s with
  | EmptyString => (EmptyString, EmptyString)
  | String c s' =>
      if Ascii.eqb c "<"%char then (EmptyString, s)
      else let '(pre, rest) := span_not_lt s' in (String c pre, rest)
  end.

(** The places where [[^>]*title=Q] can stop, in the order the greedy
    [[^>]*] tries them (the longest first); each is the text after the quote. *)
Fixpoint title_starts (s : string) : list string :=
  let here := match strip "title=" s with
              | Some r => match quote r with Some r' => [r'] | None => [] end
              | None => []
              end in
  let later := match s with
               | EmptyString => []
               | String c s' => if Ascii.eqb c ">"%char then [] else title_starts s'
               end in
  later ++ here.

(** [(NQ*?)Q[^>]*>(G)<\/span>] after the title quote, with [G] the
    class [[^<]] repeated. *)
Definition title_tail (r : string) : option (string * string * string) :=
  match upto is_quote r with
  | None => None
  | Some (title, r1) =>
      match upto (fun c => Ascii.eqb c ">"%char) r1 with
      | None => None
      | Some (_, r2) =>
          let '(inner, r3) := span_not_lt r2 in
          match strip "</span>" r3 with
          | Some r4 => Some (title, inner, r4)
          | None => None
          end
      end
  end.

Fixpoint first_some {A B} (f : A -> option B) (l : list A) : option B :=
  match l with
  | [] => None
  | x :: l' => match f x with Some b => Some b | None => first_some f l' end
  end.

(** [wordRegex], i.e. [<span class=Qocrx_wordQ[^>]*title=Q(NQ*?)Q[^>]*>(G)<\/span>],
    anchored at the start of [s]: groups 1 and 2 and the text after the
    match. *)
Definition word_at (s : string) : option (string * string * string) :=
  match strip "<span class=" s with
  | None => None
  | Some r0 =>
      match quote r0 with
      | None => None
      | Some r1 =>
          match strip "ocrx_word" r1 with
          | None => None
          | Some r2 =>
              match quote r2 with
              | None => None
              | Some r3 => first_some title_tail (title_starts r3)
              end
          end
      end
  end.

(** The [while ((match = wordRegex.exec(hocrXml)) !== null)] loop of the
    global regex: try a match at the current position, else move on by one
    character; after a match continue where it ended. [fuel] bounds the
    steps, each of which consumes at least one character. *)
Fixpoint word_matches (fuel : nat) (s : string) : list (string * string) :=
  match fuel with
  | O => []
  | S f =>
      match word_at s with
      | Some (title, inner, rest) => (title, inner) :: word_matches f rest
      | None =>
          match s with
          | EmptyString => []
          | String _ s' => word_matches f s'
          end
      end
  end.

(** [\d+], greedy: the maximal run of ASCII digits. *)
Fixpoint digit_run (s : string) : string * string :=
  match s with
  | EmptyString => (EmptyString, EmptyString)
  | String c s' =>
      if is_digit c then let '(d, r) := digit_run s' in (String c d, r)
      else (EmptyString, s)
  end.

Definition digits1 (s : string) : option (string * string) :=
  let '(d, r) := digit_run s in
  match d with EmptyString => None | _ => Some (d, r) end.

(** The integer a string of decimal digits denotes. *)
Fixpoint parse_digits_acc (acc : Z) (s : string) : Z :=
  match s with
  | EmptyString => acc
  | String c s' => parse_digits_acc (10 * acc + Z.of_nat (nat_of_ascii c - 48)) s'
  end.

(** [parseInt] of a string of decimal digits: the number nearest to the
    integer it denotes (exact up to [2^53], rounded to nearest, ties to
    even, beyond, and Infinity past the binary64 range). *)
Definition parseInt (digits : string) : JsNumber.number :=
  JsNumber.of_Z (parse_digits_acc 0 digits).

(** The leftmost match of an anchored matcher, as [RegExp.exec] finds it. *)
Fixpoint exec_first {A} (f : string -> option A) (s : string) : option A :=
  match f s with
  | Some a => Some a
  | None => match s with EmptyString => None | String _ s' => exec_first f s' end
  end.

(** [bbox (\d+) (\d+) (\d+) (\d+)] anchored: the four groups. *)
Definition bbox_at (s : string) : option (string * string * string * string) :=
  match strip "bbox " s with
  | None => None
  | Some r0 =>
      match digits1 r0 with
      | None => None
      | Some (d1, r1) =>
          match strip " " r1 with
          | None => None
          | Some r2 =>
              match digits1 r2 with
              | None => None
              | Some (d2, r3) =>
                  match strip " " r3 with
                  | None => None
                  | Some r4 =>
                      match digits1 r4 with
                      | None => None
                      | Some (d3, r5) =>
                          match strip " " r5 with
                          | None => None
                          | Some r6 =>
                              match digits1 r6 with
                              | None => None
                              | Some (d4, _) => Some (d1, d2, d3, d4)
                              end
                          end
                      end
                  end
              end
          end
      end
  end.

(** [x_wconf (\d+)] anchored: the group. *)
Definition conf_at (s : string) : option string :=
  match strip "x_wconf " s with
  | None => None
  | Some r => match digits1 r with Some (d, _) => Some d | None => None end
  end.

Record BBox := { x0 : JsNumber.number; y0 : JsNumber.number;
                 x1 : JsNumber.number; y1 : JsNumber.number }.

Record WordPosition := {
  text : string;
  bbox : BBox;
  confidence : option JsNumber.number
}.

(** The body of the loop for one match: [None] for [continue] or a failed
    [bboxMatch] test, else the pushed [WordPosition]. *)
Definition word_of_match (m : string * string) : option WordPosition :=
  let '(titleAttr, inner) := m in
  let t := JsString.trim inner in
  if negb (JsString.nonempty titleAttr) || negb (JsString.nonempty t) then None
  else
    match exec_first bbox_at titleAttr with
    | None => None
    | Some (d1, d2, d3, d4) =>
        if (JsString.nonempty d1 && JsString.nonempty d2
            && JsString.nonempty d3 && JsString.nonempty d4)%bool then
          Some {| text := t;
                  bbox := {| x0 := parseInt d1; y0 := parseInt d2;
                             x1 := parseInt d3; y1 := parseInt d4 |};
                  confidence :=
                    match exec_first conf_at titleAttr with
                    | Some d => if JsString.nonempty d then Some (parseInt d) else None
                    | None => None
                    end |}
        else None
    end.

(** The [wordPositions.push] of the loop, over all matches in order. *)
Fixpoint collect_words (ms : list (string * string)) : list WordPosition :=
  match ms with
  | [] => []
  | m :: ms' =>
      match word_of_match m with
      | Some w => w :: collect_words ms'
      | None => collect_words ms'
      end
  end.

(** [parseHocr(hocrXml)] *)
Definition parseHocr (hocrXml : string) : list WordPosition :=
  collect_words (word_matches (S (String.length hocrXml)) hocrXml).

(** A Tesseract word span whose box has its right edge left of its left
    edge and its bottom above its top. *)
Definition inverted_box_hocr : string :=
  "<div><span class='ocrx_word' id='word_1_1' title='bbox 129 29 54 10; x_wconf 96'>Courage</span></div>".

End Hocr.

(* ------------------------------------------------------------------ *)
(** ** src/exporters/searchablePdf.ts *)

Module SearchablePdf.
Import JsNumber.
Local Open Scope Z_scope.

(** [calculateFontSize(text, pageWidth, pageHeight)] in binary64
    arithmetic, operation by operation; [text.length] is the number of
    characters of [text]. *)
Definition calculateFontSize (text : string) (pageWidth pageHeight : number) : number :=
  let targetCharsPerLine := of_Z 80 in
  let margin := of_Z 10 in
  let availableWidth := sub pageWidth (mul (of_Z 2) margin) in
  let charWidthFactor := lit 5 10 in
  let fontSize := div availableWidth (mul targetCharsPerLine charWidthFactor) in
  let totalChars := of_Z (Z.of_nat (String.length text)) in
  let estimatedLines := js_ceil (div totalChars targetCharsPerLine) in
  let lineHeightFactor := lit 12 10 in
  let requiredHeight := mul (mul estimatedLines fontSize) lineHeightFactor in
  let availableHeight := sub pageHeight (mul (of_Z 2) margin) in
  let fontSize :=
    if gtb requiredHeight availableHeight
    then mul fontSize (div availableHeight requiredHeight)
    else fontSize in
  js_max (of_Z 4) (js_min (of_Z 14) fontSize).

(** The height the code estimates for [text] at [fontSize]:
    [estimatedLines * fontSize * lineHeightFactor]. *)
Definition estimated_height (text : string) (fontSize : number) : number :=
  mul (mul (js_ceil (div (of_Z (Z.of_nat (String.length text))) (of_Z 80))) fontSize)
      (lit 12 10).

(** The drawing operations the exporter issues on the PDFKit document. *)
Inductive PdfOp :=
  | AddPage (width height : Z)
  | DrawImage (path : string) (x y width height : Z)
  | SaveState
  | RestoreState
  | AddContent (content : string)
  | SetFontSize (size : number)
  | DrawText (text : string) (x y : number).

(** The fields of [ContentChunk] the exporter reads. *)
Record ContentChunk := {
  screenshot : string;
  chunk_text : string;
  wordPositions : option (list Hocr.WordPosition)
}.

(** [addInvisibleTextLayer(doc, text, pageWidth, pageHeight)] *)
Definition addInvisibleTextLayer (text : string) (pageWidth pageHeight : Z)
  : list PdfOp :=
  let fontSize := calculateFontSize text (of_Z pageWidth) (of_Z pageHeight) in
  let margin := of_Z 10 in
  [SaveState; AddContent "3 Tr"; SetFontSize fontSize;
   DrawText text margin margin; RestoreState].

(** The body of the loop of [addPositionedTextLayer] for one word. *)
Definition positioned_word (w : Hocr.WordPosition) : list PdfOp :=
  let b := Hocr.bbox w in
  let wordHeight := sub (Hocr.y1 b) (Hocr.y0 b) in
  let fontSize := js_max (of_Z 6) (js_min (of_Z 72) (mul wordHeight (lit 85 100))) in
  [SetFontSize fontSize; DrawText (Hocr.text w) (Hocr.x0 b) (Hocr.y0 b)].

(** [addPositionedTextLayer(doc, wordPositions)] *)
Definition addPositionedTextLayer (words : list Hocr.WordPosition) : list PdfOp :=
  [SaveState; AddContent "3 Tr"] ++ flat_map positioned_word words ++ [RestoreState].

(** [addSearchablePage(doc, chunk)]: the operations appended to [doc], or
    [None] when it throws. [dims] is what [sizeOf] reports for the
    screenshot ([None] for a missing width or height, or when [readFileSync]
    or [sizeOf] throws); [embeds path] tells whether [doc.image(path)]
    returns, [false] when it throws (a format PDFKit cannot embed, such as
    BMP, GIF or WebP, or a corrupt PNG or JPEG). *)
Definition addSearchablePage (embeds : string -> bool) (doc : list PdfOp)
  (chunk : ContentChunk) (dims : option (Z * Z)) : option (list PdfOp) :=
  match dims with
  | None => None
  | Some (width, height) =>
      if (Z.eqb width 0 || Z.eqb height 0)%bool then None
      else if negb (embeds (screenshot chunk)) then None
      else
        let page := doc ++ [AddPage width height;
                            DrawImage (screenshot chunk) 0 0 width height] in
        if JsString.nonempty (chunk_text chunk)
           && JsString.nonempty (JsString.trim (chunk_text chunk)) then
          match wordPositions chunk with
          | Some (w :: ws) => Some (page ++ addPositionedTextLayer (w :: ws))
          | _ => Some (page ++ addInvisibleTextLayer (chunk_text chunk) width height)
          end
        else Some page
  end.

(** A page whose text is blank (a space, a newline, a tab and a no-break
    space) but which carries one word position. *)
Definition blank_chunk : ContentChunk := {|
  screenshot := "page_0001.png";
  chunk_text := String " "%char (String (ascii_of_nat 10) (String (ascii_of_nat 9)
                  (String (ascii_of_nat 160) EmptyString)));
  wordPositions := Some [{| Hocr.text := "Courage";
                            Hocr.bbox := {| Hocr.x0 := of_Z 54; Hocr.y0 := of_Z 10;
                                            Hocr.x1 := of_Z 129; Hocr.y1 := of_Z 29 |};
                            Hocr.confidence := Some (of_Z 96) |}]
|}.

(** [n] copies of the letter [a]. *)
Fixpoint letters (n : nat) : string :=
  match n with O => EmptyString | S n' => String "a"%char (letters n') end.

(** The loop of [createPdf(content, ...)]: [addSearchablePage] for each
    chunk in order; the promise rejects at the first page that throws.
    [sizeOf] answers the dimensions of a screenshot file. *)
Fixpoint add_pages (sizeOf : string -> option (Z * Z)) (embeds : string -> bool)
  (doc : list PdfOp) (content : list ContentChunk) : option (list PdfOp) :=
  match content with
  | [] => Some doc
  | chunk :: rest =>
      match addSearchablePage embeds doc chunk (sizeOf (screenshot chunk)) with
      | None => None
      | Some doc' => add_pages sizeOf embeds doc' rest
      end
  end.

(** [createPdf(content, metadata, outputPath, options)]: the operations of
    the document ([autoFirstPage: false], so it starts empty), or [None]
    when the promise rejects. [stream_ok] tells whether the write stream
    to [outputPath] finishes; [false] when it emits ['error'] (a missing
    directory, no permission, a full disk), which [reject]s. *)
Definition createPdf (sizeOf : string -> option (Z * Z)) (embeds : string -> bool)
  (stream_ok : bool) (content : list ContentChunk) : option (list PdfOp) :=
  match add_pages sizeOf embeds [] content with
  | Some doc => if stream_ok then Some doc else None
  | None => None
  end.

(** The number of pages of a document, the images it draws in order, and
    the font sizes it sets. *)
Definition page_count (ops : list PdfOp) : nat :=
  List.length (filter (fun o => match o with AddPage _ _ => true | _ => false end) ops).

Definition images (ops : list PdfOp) : list string :=
  flat_map (fun o => match o with DrawImage p _ _ _ _ => [p] | _ => [] end) ops.

Definition font_sizes (ops : list PdfOp) : list number :=
  flat_map (fun o => match o with SetFontSize f => [f] | _ => [] end) ops.

(** The depth of PDFKit's graphics-state stack after [ops], from depth
    [d]; [None] when a [restore] finds the stack empty. *)
Fixpoint state_depth (d : nat) (ops : list PdfOp) : option nat :=
  match ops with
  | [] => Some d
  | SaveState :: rest => state_depth (S d) rest
  | RestoreState :: rest =>
      match d with O => None | S d' => state_depth d' rest end
  | _ :: rest => state_depth d rest
  end.

(** Whether a chunk gets a page: [sizeOf] reports a non-zero width and
    height, and PDFKit embeds the screenshot. *)
Definition page_ok (sizeOf : string -> option (Z * Z)) (embeds : string -> bool)
  (chunk : ContentChunk) : bool :=
  match sizeOf (screenshot chunk) with
  | Some (w, h) => negb (Z.eqb w 0 || Z.eqb h 0) && embeds (screenshot chunk)
  | None => false
  end.

(** Three pages: one with positioned words, one with plain text, one blank. *)
Definition three_chunks : list ContentChunk :=
  [{| screenshot := "p1.png"; chunk_text := "Courage";
      wordPositions := Some [{| Hocr.text := "Courage";
                                Hocr.bbox := {| Hocr.x0 := of_Z 54; Hocr.y0 := of_Z 10;
                                                Hocr.x1 := of_Z 129; Hocr.y1 := of_Z 29 |};
                                Hocr.confidence := Some (of_Z 96) |}] |};
   {| screenshot := "p2.png"; chunk_text := letters 200; wordPositions := None |};
   blank_chunk].

Definition page_sizes (path : string) : option (Z * Z) := Some (600%Z, 800%Z).

End SearchablePdf.

(* ------------------------------------------------------------------ *)
(** ** src/automation/runState.ts *)

Module RunState.

Inductive RunStatus := InProgress | Completed | Failed.

(** The fields of [RunState] that the run-state functions and the
    orchestrator read or write; timestamps are ISO strings. *)
Record RunState := {
  bookTitle : string;
  startTime : string;
  status : RunStatus;
  lastPage : nat;
  totalPages : option nat;
  exportedPages : nat;
  endTime : option string;
  stopReason : option string;
  ocrFailures : nat
}.

(** [createRunState(bookTitle, ...)] at time [now]. *)
Definition createRunState (title now : string) : RunState := {|
  bookTitle := title; startTime := now; status := InProgress; lastPage := 0;
  totalPages := None; exportedPages := 0; endTime := None;
  stopReason := None; ocrFailures := 0
|}.

(** A [Partial<RunState>]: each field is [Some v] when the object has the
    key, with value [v]. *)
Record RunStateUpdate := {
  u_bookTitle : option string;
  u_startTime : option string;
  u_status : option RunStatus;
  u_lastPage : option nat;
  u_totalPages : option (option nat);
  u_exportedPages : option nat;
  u_endTime : option (option string);
  u_stopReason : option (option string);
  u_ocrFailures : option nat
}.

Definition spread {A} (u : option A) (v : A) : A :=
  match u with Some x => x | None => v end.

(** [updateRunState(state, updates)]: [{ ...state, ...updates }]. *)
Definition updateRunState (st : RunState) (u : RunStateUpdate) : RunState := {|
  bookTitle := spread (u_bookTitle u) (bookTitle st);
  startTime := spread (u_startTime u) (startTime st);
  status := spread (u_status u) (status st);
  lastPage := spread (u_lastPage u) (lastPage st);
  totalPages := spread (u_totalPages u) (totalPages st);
  exportedPages := spread (u_exportedPages u) (exportedPages st);
  endTime := spread (u_endTime u) (endTime st);
  stopReason := spread (u_stopReason u) (stopReason st);
  ocrFailures := spread (u_ocrFailures u) (ocrFailures st)
|}.

(** [updateRunState(state, { totalPages, exportedPages })], the update the
    orchestrator makes. *)
Definition updateRunState_pages (st : RunState) (total exported : nat) : RunState :=
  updateRunState st {|
    u_bookTitle := None; u_startTime := None; u_status := None; u_lastPage := None;
    u_totalPages := Some (Some total); u_exportedPages := Some exported;
    u_endTime := None; u_stopReason := None; u_ocrFailures := None |}.

(** [completeRunState(state)] at time [now]. *)
Definition completeRunState (st : RunState) (now : string) : RunState := {|
  bookTitle := bookTitle st; startTime := startTime st; status := Completed;
  lastPage := lastPage st; totalPages := totalPages st;
  exportedPages := exportedPages st; endTime := Some now;
  stopReason := stopReason st; ocrFailures := ocrFailures st
|}.

(** [failRunState(state, reason)] at time [now]. *)
Definition failRunState (st : RunState) (reason now : string) : RunState := {|
  bookTitle := bookTitle st; startTime := startTime st; status := Failed;
  lastPage := lastPage st; totalPages := totalPages st;
  exportedPages := exportedPages st; endTime := Some now;
  stopReason := Some reason; ocrFailures := ocrFailures st
|}.

Definition RunStatus_eqb (a b : RunStatus) : bool :=
  match a, b with
  | InProgress, InProgress | Completed, Completed | Failed, Failed => true
  | _, _ => false
  end.

(** [canResume(outputDir, bookTitle)] on what [loadRunState] returns
    ([None] for a missing or unreadable file). *)
Definition canResume (loaded : option RunState) : bool :=
  match loaded with
  | Some st => RunStatus_eqb (status st) InProgress && Nat.ltb 0 (lastPage st)
  | None => false
  end.

(** [getResumePage(outputDir, bookTitle)]: [state?.lastPage || 0]. *)
Definition getResumePage (loaded : option RunState) : nat :=
  match loaded with
  | Some st => lastPage st
  | None => 0
  end.

End RunState.

(* ------------------------------------------------------------------ *)
(** ** The orchestrator: [captureAndOcrPages] and [orchestrateBookExport] *)

Module Orchestrator.
Import RunState.
Local Open Scope nat_scope.
Local Open Scope string_scope.
Local Open Scope list_scope.

(** The Kindle reader tab as the browser functions observe it: the page on
    screen and the last page of the book. *)
Record Reader := { current : nat; book_pages : nat }.

(** [getCurrentPageNumber(page)]: the label reads [Page N of M]. *)
Definition getCurrentPageNumber (r : Reader) : option nat := Some (current r).

(** [isLastPage(page)]: the next-page button is disabled on the last page. *)
Definition isLastPage (r : Reader) : bool := Nat.leb (book_pages r) (current r).

(** [navigateNextPage(page, config)]: the click turns the page, or throws
    on the last page and the function answers [false]. *)
Definition navigateNextPage (r : Reader) : bool * Reader :=
  if Nat.ltb (current r) (book_pages r)
  then (true, {| current := S (current r); book_pages := book_pages r |})
  else (false, r).

Fixpoint navigate_times (k : nat) (r : Reader) : Reader :=
  match k with O => r | S k' => navigate_times k' (snd (navigateNextPage r)) end.

Record Options := {
  opt_bookTitle : option string;
  dryRun : bool;
  maxPages : nat  (** [0] for an unset [maxPages] *)
}.

(** How [captureAndOcrPages] ends: it returns the pages; or an OCR call
    throws out of it; or [waitForPageReady] or [capturePage] throws; or
    [createOcrProvider] throws, before any page is captured. The first
    three carry the page numbers captured, in order. *)
Inductive CaptureOutcome :=
  | Captured (pages : list (nat * string)) (captured : list nat)
  | OcrThrew (captured : list nat)
  | StepThrew (captured : list nat)
  | ProviderThrew.

(** The [while (true)] capture loop. [ocr q] is what [ocrProvider.ocr]
    answers for the screenshot of page [q], [None] when it throws;
    [capture_ok q] tells whether [waitForPageReady] and [capturePage]
    return when page [q] is on screen, [false] when one of them throws.
    [fuel] bounds the iterations; each iteration that goes on turns a
    page. *)
Fixpoint capture_loop (fuel : nat) (opts : Options) (ocr : nat -> option string)
  (capture_ok : nat -> bool) (r : Reader) (pageNumber : nat)
  (pages : list (nat * string)) (captured : list nat) : CaptureOutcome :=
  match fuel with
  | O => Captured pages captured
  | S fuel' =>
      if negb (capture_ok (current r)) then StepThrew captured else
      let currentPage :=
        match getCurrentPageNumber r with
        | Some (S n) => S n
        | _ => pageNumber
        end in
      let captured' := captured ++ [currentPage] in
      let text := if dryRun opts then Some EmptyString else ocr currentPage in
      match text with
      | None => OcrThrew captured'
      | Some t =>
          let pages' := pages ++ [(currentPage, t)] in
          let shouldStop :=
            ((negb (Nat.eqb (maxPages opts) 0)
              && Nat.leb (maxPages opts) (List.length pages'))
             || isLastPage r)%bool in
          if shouldStop then Captured pages' captured'
          else
            let '(success, r') := navigateNextPage r in
            if success then
              capture_loop fuel' opts ocr capture_ok r' (S pageNumber) pages' captured'
            else Captured pages' captured'
      end
  end.

(** [captureAndOcrPages(session, config, options, metadata, startPage)].
    [provider] is the provider [createOcrProvider] returns, [None] when it
    throws (the engine is not available). *)
Definition captureAndOcrPages (opts : Options) (provider : option (nat -> option string))
  (capture_ok : nat -> bool) (startPage : nat) (r : Reader) : CaptureOutcome :=
  match provider with
  | None => ProviderThrew
  | Some ocr =>
      let pageNumber := match startPage with O => 1 | _ => startPage end in
      let r1 := if Nat.ltb 1 startPage then navigate_times (startPage - 1) r else r in
      capture_loop (S (book_pages r1)) opts ocr capture_ok r1 pageNumber [] []
  end.

Record OrchestratorResult := {
  success : bool;
  totalPages_res : nat;
  error : option string
}.

(** How the promise of [orchestrateBookExport] settles. *)
Inductive ExportOutcome :=
  | Returned (res : OrchestratorResult)
  | Rejects.

(** [options.bookTitle || metadata.meta.title] *)
Definition bookTitle_of (opts : Options) (metaTitle : string) : string :=
  match opt_bookTitle opts with
  | Some (String c s) => String c s
  | _ => metaTitle
  end.

(** [existingState || createRunState(bookTitle, ...)] *)
Definition initial_run_state (title now : string) (existing : option RunState)
  : RunState :=
  match existing with
  | Some st => st
  | None => createRunState title now
  end.

(** The [catch] block for an error with message [msg]. [metadata] is set
    by then, so the failed state is saved when [options.bookTitle] is a
    non-empty string (the empty string is falsy); [save_ok st] tells
    whether [saveRunState(st, ...)] returns, [false] when it throws, and
    then the promise rejects. Returns how the promise settles and the run
    states written, in order. *)
Definition on_error (save_ok : RunState -> bool) (opts : Options) (now msg : string)
  : ExportOutcome * list RunState :=
  let res := {| success := false; totalPages_res := 0; error := Some msg |} in
  match opt_bookTitle opts with
  | Some (String c s) =>
      let st := failRunState (createRunState (String c s) now) msg now in
      if save_ok st then (Returned res, [st]) else (Rejects, [])
  | _ => (Returned res, [])
  end.

(** [orchestrateBookExport(options)] from step 4 on, after the browser has
    been launched, the reader opened ([r]) and the metadata extracted, with
    title [metaTitle]: [existing] is what [loadRunState] returns, [now] the
    clock. [saveMetadata_ok] tells whether [saveMetadata] returns (its
    [writeFile] does not create the directory) and [save_ok st] whether
    [saveRunState(st, ...)] does. [exportMultiple] catches the failure of
    each format, so it does not throw. The error messages are abstracted as
    one string per kind of failure. Returns how the promise settles and the
    run states written, in order. *)
Definition orchestrateBookExport (opts : Options) (metaTitle now : string)
  (existing : option RunState) (provider : option (nat -> option string))
  (capture_ok : nat -> bool) (saveMetadata_ok : bool) (save_ok : RunState -> bool)
  (r : Reader) : ExportOutcome * list RunState :=
  let title := bookTitle_of opts metaTitle in
  let runState := initial_run_state title now existing in
  match captureAndOcrPages opts provider capture_ok (lastPage runState) r with
  | ProviderThrew => on_error save_ok opts now "OCR provider not available"
  | StepThrew _ => on_error save_ok opts now "page capture failed"
  | OcrThrew _ => on_error save_ok opts now "OCR failed"
  | Captured pages _ =>
      let st := updateRunState_pages runState (List.length pages) (List.length pages) in
      if negb saveMetadata_ok then on_error save_ok opts now "metadata write failed"
      else
        let st' := completeRunState st now in
        if save_ok st' then
          (Returned {| success := true; totalPages_res := List.length pages;
                       error := None |}, [st'])
        else on_error save_ok opts now "run state write failed"
  end.

(** A persisted run of a 20-page book stopped after page 7. *)
Definition resumable_state : RunState := {|
  bookTitle := "Book"; startTime := "t0"; status := InProgress; lastPage := 7;
  totalPages := None; exportedPages := 7; endTime := None;
  stopReason := None; ocrFailures := 0
|}.

Definition plain_options : Options :=
  {| opt_bookTitle := Some "Book"; dryRun := false; maxPages := 0 |}.

(** An OCR backend that throws on page 2 only. *)
Definition fails_on_page_2 (q : nat) : option string :=
  if Nat.eqb q 2 then None else Some "text".

(** A run state saved by an earlier run that failed. *)
Definition failed_state : RunState :=
  failRunState (createRunState "Book" "t0") "OCR failed" "t1".

End Orchestrator.

(* ================================================================== *)
(** * src/ocr/batchOcr.ts *)

(** [performBatchOcr] runs its per-path worker through [pMap] with a
    concurrency limit. The model runs the worker on the valid paths one at a
    time, in order: the schedule [pMap] follows with [concurrency = 1], and
    one admissible interleaving for larger limits. Delays and timings are
    left out. [provider.ocr] is an oracle that may depend on how many calls
    were made before, and [existsSync] a predicate on paths. *)
Module BatchOcr.
Import JsString.
Local Open Scope string_scope.
Local Open Scope list_scope.

(** The options after the destructuring of [performBatchOcr]. The
    [onProgress] callback is modelled by whether each of its calls
    returns: [f completed total path = false] when that call throws. *)
Record BatchOcrOptions := {
  concurrency : JsNumber.number;
  onProgress : option (nat -> nat -> string -> bool);
  continueOnError : bool;
  retryFailures : bool;
  maxRetries : nat
}.

(** The destructuring defaults of [performBatchOcr]. *)
Definition default_options : BatchOcrOptions :=
  {| concurrency := JsNumber.of_Z 4; onProgress := None; continueOnError := true;
     retryFailures := true; maxRetries := 3 |}.

(** The argument check of [pMap]:
    [(Number.isSafeInteger(concurrency) && concurrency >= 1) ||
     concurrency === Infinity]; otherwise it throws a [TypeError] before
    calling the mapper, and its promise rejects. *)
Definition valid_concurrency (c : JsNumber.number) : bool :=
  (JsNumber.isSafeInteger c && SFleb (JsNumber.of_Z 1) c)
  || match c with S754_infinity false => true | _ => false end.

(** What one [await provider.ocr(path)] does: resolve with a text or throw
    an error with a message. *)
Inductive OcrReply := Text (t : string) | Thrown (message : string).

(** The [n]-th call of [provider.ocr] (counting from 0) on a path. *)
Definition Provider := nat -> string -> OcrReply.

Record Stats := { total : nat; successful : nat; failed : nat }.

Record BatchOcrResult := {
  results : list (string * string);
  failures : list (string * string);
  stats : Stats
}.

(** The run either resolves; or rejects because a worker threw (its OCR
    failed and [continueOnError] is false, or [onProgress] threw), with the
    path of that worker; or rejects because [pMap] refused [concurrency].
    The first two carry the paths passed to [provider.ocr], in call
    order. *)
Inductive BatchOutcome :=
| Resolved (r : BatchOcrResult) (ocr_calls : list string)
| Rejected (path : string) (ocr_calls : list string)
| ConcurrencyRejected.

Definition noRetryPatterns : list string :=
  ["file not found"; "invalid image"; "api key"; "unauthorized";
   "quota exceeded"; "model not found"].

(** [shouldRetry(error)] *)
Definition shouldRetry (message : string) : bool :=
  let m := toLowerCase message in
  negb (existsb (fun pattern => includes pattern m) noRetryPatterns).

(** [lastError?.message || 'Unknown error'] *)
Definition failure_message (lastError : option string) : string :=
  match lastError with
  | Some m => if String.eqb m "" then "Unknown error" else m
  | None => "Unknown error"
  end.

(** The filter over [imagePaths]: keeps the existing paths and pushes
    [{path, error: 'File not found'}] onto [failures] for the others. *)
Fixpoint filter_existing (existsSync : string -> bool) (paths : list string)
  (failures : list (string * string)) : list string * list (string * string) :=
  match paths with
  | [] => ([], failures)
  | path :: rest =>
      if existsSync path then
        let '(valid, fs) := filter_existing existsSync rest failures in
        (path :: valid, fs)
      else filter_existing existsSync rest (failures ++ [(path, "File not found")])
  end.

(** The mutable state shared by the workers: [results], [failures], the
    [completed] counter and the log of [provider.ocr] calls. *)
Record BatchState := {
  acc_results : list (string * string);
  acc_failures : list (string * string);
  ocr_log : list string;
  completed : nat
}.

(** The retry loop [for (attempt = 0; attempt < maxRetries && !success; ...)],
    with [k = maxRetries - attempt] attempts left. Returns the text on
    success, [lastError] and the extended call log. *)
Fixpoint try_ocr (k : nat) (retryFailures : bool) (provider : Provider)
  (path : string) (log : list string) (lastError : option string)
  : option string * option string * list string :=
  match k with
  | O => (None, lastError, log)
  | S k' =>
      let log1 := log ++ [path] in
      match provider (List.length log) path with
      | Text t => (Some t, lastError, log1)
      | Thrown m =>
          if (negb retryFailures || negb (shouldRetry m))%bool
          then (None, Some m, log1)
          else try_ocr k' retryFailures provider path log1 (Some m)
      end
  end.

(** [completed++] and [if (onProgress) onProgress(completed,
    validPaths.length, imagePath)]; the boolean tells whether the callback
    threw. *)
Definition report (opts : BatchOcrOptions) (total : nat) (path : string)
  (st : BatchState) : BatchState * bool :=
  let st' := {| acc_results := acc_results st; acc_failures := acc_failures st;
                ocr_log := ocr_log st; completed := S (completed st) |} in
  match onProgress opts with
  | Some f => (st', negb (f (completed st') total path))
  | None => (st', false)
  end.

(** The worker for one valid path, [total] being [validPaths.length]; the
    boolean tells whether it threw. *)
Definition process_path (opts : BatchOcrOptions) (provider : Provider) (total : nat)
  (st : BatchState) (path : string) : BatchState * bool :=
  let '(text, lastError, log') :=
    try_ocr (maxRetries opts) (retryFailures opts) provider path (ocr_log st) None in
  match text with
  | Some t =>
      report opts total path
        {| acc_results := acc_results st ++ [(path, t)];
           acc_failures := acc_failures st; ocr_log := log';
           completed := completed st |}
  | None =>
      let st1 := {| acc_results := acc_results st;
                    acc_failures := acc_failures st ++ [(path, failure_message lastError)];
                    ocr_log := log'; completed := completed st |} in
      if continueOnError opts then report opts total path st1 else (st1, true)
  end.

(** [pMap(validPaths, worker, { concurrency })] once the argument check has
    passed, stopping at the first worker that throws; the path of that
    worker is returned with the state. *)
Fixpoint run_paths (opts : BatchOcrOptions) (provider : Provider) (total : nat)
  (paths : list string) (st : BatchState) : BatchState * option string :=
  match paths with
  | [] => (st, None)
  | path :: rest =>
      let '(st', threw) := process_path opts provider total st path in
      if threw then (st', Some path) else run_paths opts provider total rest st'
  end.

(** [performBatchOcr(provider, imagePaths, options)] *)
Definition performBatchOcr (provider : Provider) (existsSync : string -> bool)
  (imagePaths : list string) (opts : BatchOcrOptions) : BatchOutcome :=
  let '(validPaths, failures0) := filter_existing existsSync imagePaths [] in
  if negb (valid_concurrency (concurrency opts)) then ConcurrencyRejected else
  let st0 := {| acc_results := []; acc_failures := failures0; ocr_log := [];
                completed := 0 |} in
  let '(st, thrown) := run_paths opts provider (List.length validPaths) validPaths st0 in
  match thrown with
  | Some path => Rejected path (ocr_log st)
  | None =>
      Resolved {| results := acc_results st; failures := acc_failures st;
                  stats := {| total := List.length imagePaths;
                              successful := List.length (acc_results st);
                              failed := List.length (acc_failures st) |} |}
               (ocr_log st)
  end.


Definition p2_missing (path : string) : bool := negb (String.eqb path "p2.png").

(** A provider that always answers. *)
Definition echo_provider : Provider := fun _ path => Text path.


End BatchOcr.

(* ------------------------------------------------------------------ *)
(** ** [sanitizeFolderName] (run state and capture folders) *)

Module FolderName.
Import JsString.
Local Open Scope nat_scope.
Local Open Scope string_scope.

(** The class of the first [replace]: by character code, the characters
    less-than, greater-than, colon, double quote, slash, backslash,
    vertical bar, question mark and asterisk. *)
Definition is_forbidden (c : ascii) : bool :=
  existsb (Nat.eqb (nat_of_ascii c)) [60; 62; 58; 34; 47; 92; 124; 63; 42].

(** The class [\s] on code units below 256: TAB, LF, VT, FF, CR, SPACE
    and NO-BREAK SPACE. *)
Definition is_space (c : ascii) : bool :=
  (is_ws c || Nat.eqb (nat_of_ascii c) 160)%bool.

Definition is_dash (c : ascii) : bool := Ascii.eqb c "-"%char.

(** The class [[-_]]. *)
Definition is_dash_or_underscore (c : ascii) : bool :=
  (Ascii.eqb c "-"%char || Ascii.eqb c "_"%char)%bool.

(** [s.replace(/[class]/g, r)] *)
Fixpoint replace_class (p : ascii -> bool) (r : ascii) (s : string) : string :=
  match s with
  | EmptyString => EmptyString
  | String c s' => String (if p c then r else c) (replace_class p r s')
  end.

(** [s.replace(/[class]+/g, r)]: each maximal run of characters of the
    class becomes one [r]; [in_run] tells whether the previous character
    was of the class. *)
Fixpoint replace_runs (p : ascii -> bool) (r : ascii) (in_run : bool)
  (s : string) : string :=
  match s with
  | EmptyString => EmptyString
  | String c s' =>
      if p c then
        if in_run then replace_runs p r true s'
        else String r (replace_runs p r true s')
      else String c (replace_runs p r false s')
  end.

Fixpoint drop_while (p : ascii -> bool) (s : string) : string :=
  match s with
  | EmptyString => EmptyString
  | String c s' => if p c then drop_while p s' else s
  end.

(** [s.replace(/^[class]+|[class]+$/g, '')]: the leading and the trailing
    run of the class are removed. *)
Definition trim_class (p : ascii -> bool) (s : string) : string :=
  rev_str (drop_while p (rev_str (drop_while p s))).

(** [sanitizeFolderName(name)] *)
Definition sanitizeFolderName (name : string) : string :=
  substring 0 200
    (trim_class is_dash_or_underscore
      (replace_runs is_dash "-"%char false
        (replace_runs is_space "_"%char false
          (replace_class is_forbidden "-"%char name)))).

End FolderName.

(* ------------------------------------------------------------------ *)
(** ** [TesseractOcrProvider.ocrBatch] *)

Module TesseractBatch.
Local Open Scope list_scope.

(** One [this.ocr(path, options)]: [Some text] when it resolves, [None]
    when it throws. *)
Definition Ocr := string -> option string.

(** The chunks [imagePaths.slice(i, i + concurrency)] for
    [i = 0, 4, 8, ...] with [concurrency = 4]. *)
Fixpoint batches (l : list string) : list (list string) :=
  match l with
  | a :: b :: c :: d :: rest => [a; b; c; d] :: batches rest
  | [] => []
  | _ => [l]
  end.

(** [Promise.all]: all the values, or a rejection if one rejects. *)
Fixpoint all_ok (rs : list (option string)) : option (list string) :=
  match rs with
  | [] => Some []
  | None :: _ => None
  | Some t :: rs' =>
      match all_ok rs' with
      | Some ts => Some (t :: ts)
      | None => None
      end
  end.

(** The [for] loop over the chunks. It returns the result ([None] when it
    throws) and the paths passed to [this.ocr], in call order. *)
Fixpoint run_batches (ocr : Ocr) (bs : list (list string))
  (results started : list string) : option (list string) * list string :=
  match bs with
  | [] => (Some results, started)
  | batch :: rest =>
      let started' := started ++ batch in
      match all_ok (map ocr batch) with
      | Some batchResults => run_batches ocr rest (results ++ batchResults) started'
      | None => (None, started')
      end
  end.

(** [ocrBatch(imagePaths, options)] *)
Definition ocrBatch (ocr : Ocr) (imagePaths : list string)
  : option (list string) * list string :=
  run_batches ocr (batches imagePaths) [] [].

End TesseractBatch.

(* ------------------------------------------------------------------ *)
(** ** [formatTime] of the batch OCR module *)

Module FormatTime.
Local Open Scope string_scope.
Local Open Scope Z_scope.

Fixpoint string_of_uint (d : Decimal.uint) : string :=
  match d with
  | Decimal.Nil => EmptyString
  | Decimal.D0 d => String "0" (string_of_uint d)
  | Decimal.D1 d => String "1" (string_of_uint d)
  | Decimal.D2 d => String "2" (string_of_uint d)
  | Decimal.D3 d => String "3" (string_of_uint d)
  | Decimal.D4 d => String "4" (string_of_uint d)
  | Decimal.D5 d => String "5" (string_of_uint d)
  | Decimal.D6 d => String "6" (string_of_uint d)
  | Decimal.D7 d => String "7" (string_of_uint d)
  | Decimal.D8 d => String "8" (string_of_uint d)
  | Decimal.D9 d => String "9" (string_of_uint d)
  end.

(** A template literal on an integral [number]: its decimal digits, with
    a minus sign when negative. *)
Definition to_dec (n : Z) : string :=
  match n with
  | Z0 => "0"
  | Zpos p => string_of_uint (Pos.to_uint p)
  | Zneg p => String "-" (string_of_uint (Pos.to_uint p))
  end.

(** [formatTime(ms)] for a whole number of milliseconds [ms]. For
    [|ms| <= 10^12] the JavaScript quotients are exact enough that
    [Math.floor(a / b)] is the floor division [a / b] on [Z]; [%] is the
    truncated remainder [Z.rem]. *)
Definition formatTime (ms : Z) : string :=
  let seconds := ms / 1000 in
  let minutes := seconds / 60 in
  let hours := minutes / 60 in
  if 0 <? hours then
    to_dec hours ++ "h " ++ to_dec (Z.rem minutes 60) ++ "m "
      ++ to_dec (Z.rem seconds 60) ++ "s"
  else if 0 <? minutes then
    to_dec minutes ++ "m " ++ to_dec (Z.rem seconds 60) ++ "s"
  else to_dec seconds ++ "s".

End FormatTime.

(* ================================================================== *)
(** * Proofs *)

Module JsNumberFacts.
Import JsNumber.
Local Open Scope Z_scope.

Local Abbreviation D := Zdigits2.

Lemma digits2_pos_size p : digits2_pos p = Pos.size p.
Proof. induction p; simpl; rewrite ?IHp; reflexivity. Qed.

Lemma D_log2 m : 0 < m -> D m = Z.log2 m + 1.
Proof.
  intro Hm. destruct m as [|p|p]; try lia. simpl. rewrite digits2_pos_size.
  destruct p; simpl; lia.
Qed.

Lemma D_0 : D 0 = 0.
Proof. reflexivity. Qed.

Lemma D_nonneg m : 0 <= D m.
Proof. destruct m; simpl; lia. Qed.

Lemma D_upper m : 0 <= m -> m < 2 ^ D m.
Proof.
  intro Hm. destruct (Z.eq_dec m 0) as [->|Hm0]; [reflexivity|].
  rewrite D_log2 by lia. rewrite Z.add_1_r. apply Z.log2_spec. lia.
Qed.

Lemma D_lower m : 0 < m -> 2 ^ (D m - 1) <= m.
Proof.
  intro Hm. rewrite D_log2 by lia. replace (Z.log2 m + 1 - 1) with (Z.log2 m) by lia.
  apply Z.log2_spec. exact Hm.
Qed.

Lemma D_le m k : 0 <= m -> 0 <= k -> m < 2 ^ k -> D m <= k.
Proof.
  intros Hm Hk Hlt. destruct (Z.eq_dec m 0) as [->|Hm0]; [simpl; lia|].
  rewrite D_log2 by lia. apply Z.log2_lt_pow2 in Hlt; lia.
Qed.

Lemma D_mono a b : 0 <= a <= b -> D a <= D b.
Proof.
  intros [Ha Hab]. apply D_le; [lia|apply D_nonneg|].
  pose proof (D_upper b). lia.
Qed.

Lemma D_succ m : 0 <= m -> D (m + 1) <= D m + 1.
Proof.
  intro Hm. apply D_le; [lia|pose proof (D_nonneg m); lia|].
  rewrite Z.pow_add_r by (pose proof (D_nonneg m); lia).
  pose proof (D_upper m Hm). lia.
Qed.

Lemma D_shiftr m k : 0 <= m -> 0 <= k -> D (Z.shiftr m k) <= Z.max (D m - k) 0.
Proof.
  intros Hm Hk. rewrite Z.shiftr_div_pow2 by exact Hk.
  destruct (Z.eq_dec m 0) as [->|Hm0]; [rewrite Z.div_0_l by (apply Z.pow_nonzero; lia); simpl; lia|].
  destruct (Z.le_gt_cases (D m) k) as [Hle|Hgt].
  - rewrite Z.div_small; [simpl; lia|]. split; [lia|].
    apply Z.lt_le_trans with (2 ^ D m); [apply D_upper; lia|].
    apply Z.pow_le_mono_r; lia.
  - apply D_le.
    + apply Z.div_pos; [lia|]. apply Z.pow_pos_nonneg; lia.
    + lia.
    + apply Z.div_lt_upper_bound; [apply Z.pow_pos_nonneg; lia|].
      rewrite <- Z.pow_add_r by lia.
      replace (k + Z.max (D m - k) 0) with (D m) by lia. apply D_upper. lia.
Qed.

Lemma D_mul_pow2 m k : 0 < m -> 0 <= k -> D (m * 2 ^ k) = D m + k.
Proof.
  intros Hm Hk. rewrite !D_log2; [| lia | apply Z.mul_pos_pos; [lia|apply Z.pow_pos_nonneg; lia]].
  rewrite Z.log2_mul_pow2 by lia. lia.
Qed.

Lemma D_mul a b : 0 <= a -> 0 <= b -> D (a * b) <= D a + D b.
Proof.
  intros Ha Hb. apply D_le; [nia|pose proof (D_nonneg a); pose proof (D_nonneg b); lia|].
  rewrite Z.pow_add_r by apply D_nonneg.
  pose proof (D_upper a Ha). pose proof (D_upper b Hb).
  apply Z.mul_lt_mono_nonneg; lia.
Qed.

Lemma D_abs_add a b k : Z.abs a < 2 ^ k -> Z.abs b < 2 ^ k -> 0 <= k ->
  D (Z.abs (a + b)) <= k + 1.
Proof.
  intros Ha Hb Hk. apply D_le; [lia|lia|].
  rewrite Z.pow_add_r by lia. lia.
Qed.

(** Iterations. *)
Lemma iter_pos_iter {A} (f : A -> A) p x : iter_pos f p x = Pos.iter f x p.
Proof.
  revert x. induction p as [p IH|p IH|]; intro x; simpl.
  - rewrite !IH, !Pos.iter_swap. reflexivity.
  - rewrite !IH. reflexivity.
  - reflexivity.
Qed.

Lemma shr_1_m mrs : 0 <= shr_m mrs -> shr_m (shr_1 mrs) = Z.div2 (shr_m mrs).
Proof.
  destruct mrs as [m r s]. simpl. intro Hm.
  destruct m as [|[p|p|]|p]; simpl; reflexivity || lia.
Qed.

Lemma iter_shr_m p mrs : 0 <= shr_m mrs ->
  shr_m (Pos.iter shr_1 mrs p) = Z.shiftr (shr_m mrs) (Zpos p).
Proof.
  intro Hm. unfold Z.shiftr. simpl Z.opp. unfold Z.shiftl.
  induction p as [|p IH] using Pos.peano_ind.
  - simpl. apply shr_1_m. exact Hm.
  - rewrite !Pos.iter_succ. rewrite shr_1_m; rewrite IH; [reflexivity|].
    change (Pos.iter Z.div2 (shr_m mrs) p) with (Z.shiftr (shr_m mrs) (Zpos p)).
    apply Z.shiftr_nonneg. exact Hm.
Qed.

Lemma shr_record_of_loc_m m l : shr_m (shr_record_of_loc m l) = m.
Proof. destruct l as [|[]]; reflexivity. Qed.

Lemma fexp_eq e : fexp 53 1024 e = Z.max (e - 53) (-1074).
Proof. reflexivity. Qed.

Lemma shr_fexp_spec m e l : 0 <= m ->
  let '(mrs, e') := shr_fexp 53 1024 m e l in
  e' = Z.max e (fexp 53 1024 (D m + e)) /\ shr_m mrs = Z.shiftr m (e' - e) /\
  0 <= shr_m mrs.
Proof.
  intro Hm. unfold shr_fexp, shr.
  destruct (fexp 53 1024 (D m + e) - e) as [|p|p] eqn:E.
  - rewrite shr_record_of_loc_m. rewrite Z.sub_diag, Z.shiftr_0_r. lia.
  - rewrite iter_pos_iter, iter_shr_m; rewrite shr_record_of_loc_m; [|exact Hm].
    split; [lia|]. split; [f_equal; lia|]. apply Z.shiftr_nonneg. exact Hm.
  - rewrite shr_record_of_loc_m. rewrite Z.sub_diag, Z.shiftr_0_r. lia.
Qed.

Lemma round_nearest_even_bounds m l : m <= round_nearest_even m l <= m + 1.
Proof. destruct l as [|[]]; simpl; try lia. destruct (Z.even m); lia. Qed.

(** Rounding a non-negative mantissa never gives NaN and keeps the sign. *)
Lemma binary_round_aux_sign sx mx ex lx : 0 <= mx ->
  match binary_round_aux 53 1024 sx mx ex lx with
  | S754_zero s | S754_infinity s | S754_finite s _ _ => s = sx
  | S754_nan => False
  end.
Proof.
  intro Hm. unfold binary_round_aux.
  pose proof (shr_fexp_spec mx ex lx Hm) as H1.
  destruct (shr_fexp 53 1024 mx ex lx) as [mrs' e'].
  destruct H1 as (_ & _ & Hm1).
  pose proof (round_nearest_even_bounds (shr_m mrs') (loc_of_shr_record mrs')) as Hr.
  assert (Hm2 : 0 <= round_nearest_even (shr_m mrs') (loc_of_shr_record mrs')) by lia.
  pose proof (shr_fexp_spec _ e' loc_Exact Hm2) as H2.
  destruct (shr_fexp 53 1024 _ e' loc_Exact) as [mrs'' e''].
  destruct H2 as (_ & _ & Hm3).
  destruct (shr_m mrs''); [reflexivity| |lia].
  destruct (e'' <=? 1024 - 53); reflexivity.
Qed.

(** Finite and zero values with a bounded magnitude: exponent at most
    [emax - prec] and [digits m + e <= K], i.e. below [2^K]. *)
Definition bounded_by (K : Z) (x : number) : Prop :=
  match x with
  | S754_zero _ => True
  | S754_finite _ m e => e <= 971 /\ D (Zpos m) + e <= K /\ D (Zpos m) <= 53
  | _ => False
  end.

Lemma bounded_by_weaken K K' x : K <= K' -> bounded_by K x -> bounded_by K' x.
Proof. destruct x; simpl; lia. Qed.

Lemma binary_round_aux_bound sx mx ex lx : 0 <= mx -> ex <= 971 -> D mx + ex <= 1023 ->
  bounded_by (Z.max (D mx + ex) (-1074) + 1) (binary_round_aux 53 1024 sx mx ex lx).
Proof.
  intros Hm Hex HD. unfold binary_round_aux.
  pose proof (shr_fexp_spec mx ex lx Hm) as H1.
  destruct (shr_fexp 53 1024 mx ex lx) as [mrs' e'].
  destruct H1 as (He' & Hm1e & Hm1).
  rewrite fexp_eq in He'.
  set (m1 := shr_m mrs') in *.
  assert (HD1 : D m1 + e' <= Z.max (D mx + ex) (-1074)).
  { rewrite Hm1e. pose proof (D_nonneg mx).
    pose proof (D_shiftr mx (e' - ex) Hm ltac:(lia)). lia. }
  pose proof (round_nearest_even_bounds m1 (loc_of_shr_record mrs')) as Hr.
  set (m2 := round_nearest_even m1 (loc_of_shr_record mrs')) in *.
  assert (HD2 : D m2 <= D m1 + 1).
  { pose proof (D_succ m1 Hm1). pose proof (D_mono m2 (m1 + 1) ltac:(lia)). lia. }
  assert (Hm2 : 0 <= m2) by lia.
  pose proof (shr_fexp_spec m2 e' loc_Exact Hm2) as H2.
  destruct (shr_fexp 53 1024 m2 e' loc_Exact) as [mrs'' e''].
  destruct H2 as (He'' & Hm3e & Hm3).
  rewrite fexp_eq in He''.
  pose proof (D_nonneg m1). pose proof (D_nonneg m2).
  assert (HD3 : D (shr_m mrs'') + e'' <= Z.max (D mx + ex) (-1074) + 1).
  { rewrite Hm3e. pose proof (D_shiftr m2 (e'' - e') Hm2 ltac:(lia)). lia. }
  assert (HD4 : D (shr_m mrs'') <= 53).
  { rewrite Hm3e. pose proof (D_shiftr m2 (e'' - e') Hm2 ltac:(lia)). lia. }
  destruct (shr_m mrs'') as [|p|p]; [exact I| |lia].
  replace (e'' <=? 1024 - 53) with true by (symmetry; apply Z.leb_le; lia).
  split; [lia|split; [exact HD3|exact HD4]].
Qed.

Lemma binary_round_aux_bound_sign sx mx ex lx : 0 <= mx -> ex <= 971 -> D mx + ex <= 1023 ->
  match binary_round_aux 53 1024 sx mx ex lx with
  | S754_zero s | S754_finite s _ _ => s = sx
  | _ => False
  end.
Proof.
  intros Hm Hex HD. pose proof (binary_round_aux_sign sx mx ex lx Hm) as Hs.
  pose proof (binary_round_aux_bound sx mx ex lx Hm Hex HD) as Hb.
  destruct (binary_round_aux 53 1024 sx mx ex lx); simpl in *; tauto.
Qed.

Lemma Zpos_iter_xO p d : Zpos (Pos.iter xO p d) = Zpos p * 2 ^ Zpos d.
Proof.
  induction d as [|d IH] using Pos.peano_ind.
  - simpl. lia.
  - rewrite Pos.iter_succ, Pos2Z.inj_succ, Z.pow_succ_r by lia.
    change (Zpos (xO (Pos.iter xO p d))) with (2 * Zpos (Pos.iter xO p d)).
    rewrite IH. lia.
Qed.

Lemma shl_align_spec mx ex ex' :
  let '(m, e) := shl_align mx ex ex' in
  e = Z.min ex ex' /\ Zpos m = Zpos mx * 2 ^ (ex - e).
Proof.
  unfold shl_align. destruct (ex' - ex) as [|d|d] eqn:E.
  - split; [lia|]. rewrite Z.sub_diag. lia.
  - split; [lia|]. rewrite Z.sub_diag. lia.
  - split; [lia|]. rewrite Zpos_iter_xO. f_equal. f_equal. lia.
Qed.

Lemma binary_round_bound s p e : e <= 971 -> D (Zpos p) + e <= 1023 ->
  match binary_round 53 1024 s p e with
  | S754_zero s' | S754_finite s' _ _ => s' = s
  | _ => False
  end /\
  bounded_by (Z.max (D (Zpos p) + e) (-1074) + 1) (binary_round 53 1024 s p e).
Proof.
  intros He HD. unfold binary_round.
  pose proof (shl_align_spec p e (fexp 53 1024 (Zpos (digits2_pos p) + e))) as H.
  destruct (shl_align p e _) as [mz ez]. destruct H as [Hez Hmz].
  assert (HDz : D (Zpos mz) + ez = D (Zpos p) + e).
  { rewrite Hmz, D_mul_pow2 by lia. lia. }
  split.
  - apply binary_round_aux_bound_sign; lia.
  - rewrite <- HDz. apply binary_round_aux_bound; lia.
Qed.

Lemma binary_normalize_bound m e sz : e <= 971 -> D m + e <= 1023 ->
  match binary_normalize 53 1024 m e sz with
  | S754_zero _ => True
  | S754_finite s _ _ => s = (m <? 0)
  | _ => False
  end /\
  bounded_by (Z.max (D m + e) (-1074) + 1) (binary_normalize 53 1024 m e sz).
Proof.
  intros He HD. destruct m as [|p|p]; simpl binary_normalize.
  - split; exact I.
  - destruct (binary_round_bound false p e He HD) as [Hs Hb].
    split; [|exact Hb]. destruct (binary_round 53 1024 false p e); try contradiction; trivial.
  - destruct (binary_round_bound true p e He HD) as [Hs Hb].
    split; [|exact Hb]. destruct (binary_round 53 1024 true p e); try contradiction; trivial.
Qed.

Lemma binary_round_sign s p e :
  match binary_round 53 1024 s p e with
  | S754_zero s' | S754_infinity s' | S754_finite s' _ _ => s' = s
  | S754_nan => False
  end.
Proof.
  unfold binary_round. destruct (shl_align p e _) as [mz ez].
  apply binary_round_aux_sign. lia.
Qed.

Lemma binary_normalize_sign m e sz :
  match binary_normalize 53 1024 m e sz with
  | S754_zero _ => True
  | S754_infinity s | S754_finite s _ _ => s = (m <? 0)
  | S754_nan => False
  end.
Proof.
  destruct m as [|p|p]; simpl binary_normalize; [exact I| |];
    [pose proof (binary_round_sign false p e) as H|pose proof (binary_round_sign true p e) as H];
    destruct (binary_round _ _ _ p e); trivial.
Qed.

Lemma of_Z_bounded z k : 0 <= z < 2 ^ k -> 0 <= k <= 1023 ->
  bounded_by (k + 1) (of_Z z) /\
  match of_Z z with S754_zero _ => True | S754_finite s _ _ => s = false | _ => False end.
Proof.
  intros Hz Hk. assert (HD : D z <= k) by (apply D_le; lia).
  destruct (binary_normalize_bound z 0 false ltac:(lia) ltac:(lia)) as [Hs Hb].
  unfold of_Z. split.
  - apply (bounded_by_weaken _ _ _ (ltac:(lia) : Z.max (D z + 0) (-1074) + 1 <= k + 1) Hb).
  - destruct (binary_normalize 53 1024 z 0 false); trivial. rewrite Hs. apply Z.ltb_ge. lia.
Qed.

Lemma of_Z_exact z : 0 < z -> D z <= 53 ->
  of_Z z = S754_finite false (Z.to_pos (z * 2 ^ (53 - D z))) (D z - 53).
Proof.
  intros Hz HD. destruct z as [|p|p]; try lia.
  unfold of_Z, binary_normalize, binary_round.
  pose proof (shl_align_spec p 0 (fexp 53 1024 (Zpos (digits2_pos p) + 0))) as H.
  destruct (shl_align p 0 _) as [mz ez]. destruct H as [Hez Hmz].
  change (Zpos (digits2_pos p)) with (D (Zpos p)) in Hez.
  rewrite fexp_eq in Hez. pose proof (D_nonneg (Zpos p)).
  assert (Hez' : ez = D (Zpos p) - 53).
  { assert (1 <= D (Zpos p)).
    { rewrite D_log2 by lia. pose proof (Z.log2_nonneg (Zpos p)). lia. }
    lia. }
  rewrite Hez' in *.
  assert (HDm : D (Zpos mz) = 53).
  { rewrite Hmz, D_mul_pow2 by lia. lia. }
  unfold binary_round_aux, shr_fexp. rewrite HDm, fexp_eq.
  replace (Z.max (53 + (D (Zpos p) - 53) - 53) (-1074) - (D (Zpos p) - 53)) with 0 by lia.
  change (shr (shr_record_of_loc (Zpos mz) loc_Exact) (D (Zpos p) - 53) 0)
    with (shr_record_of_loc (Zpos mz) loc_Exact, D (Zpos p) - 53).
  cbv iota beta. simpl shr_m. simpl loc_of_shr_record. simpl round_nearest_even.
  rewrite HDm, fexp_eq.
  replace (Z.max (53 + (D (Zpos p) - 53) - 53) (-1074) - (D (Zpos p) - 53)) with 0 by lia.
  change (shr (shr_record_of_loc (Zpos mz) loc_Exact) (D (Zpos p) - 53) 0)
    with (shr_record_of_loc (Zpos mz) loc_Exact, D (Zpos p) - 53).
  cbv iota beta. simpl shr_m.
  replace (D (Zpos p) - 53 <=? 1024 - 53) with true by (symmetry; apply Z.leb_le; lia).
  f_equal. apply Pos2Z.inj. rewrite Z2Pos.id; [|apply Z.mul_pos_pos; [lia|apply Z.pow_pos_nonneg; lia]].
  rewrite Hmz. f_equal. f_equal. lia.
Qed.

(** [a - b] on two integers below [2^53], as exact as [Number] is. *)
Lemma sub_of_Z a b : 0 < a -> 0 < b -> D a <= 53 -> D b <= 53 ->
  sub (of_Z a) (of_Z b) =
  binary_normalize 53 1024 ((a - b) * 2 ^ (53 - Z.min (D a) (D b)))
    (Z.min (D a) (D b) - 53) false.
Proof.
  intros Ha Hb HDa HDb. rewrite (of_Z_exact a), (of_Z_exact b) by assumption.
  unfold sub, SFsub. cbv zeta.
  set (ez := Z.min (D a - 53) (D b - 53)).
  pose proof (shl_align_spec (Z.to_pos (a * 2 ^ (53 - D a))) (D a - 53) ez) as H1.
  pose proof (shl_align_spec (Z.to_pos (b * 2 ^ (53 - D b))) (D b - 53) ez) as H2.
  destruct (shl_align (Z.to_pos (a * 2 ^ (53 - D a))) (D a - 53) ez) as [ma ea].
  destruct (shl_align (Z.to_pos (b * 2 ^ (53 - D b))) (D b - 53) ez) as [mb eb].
  simpl fst. destruct H1 as [Hea Hma]. destruct H2 as [Heb Hmb].
  pose proof (D_nonneg a). pose proof (D_nonneg b).
  assert (Hpa : 0 < a * 2 ^ (53 - D a)) by (apply Z.mul_pos_pos; [lia|apply Z.pow_pos_nonneg; lia]).
  assert (Hpb : 0 < b * 2 ^ (53 - D b)) by (apply Z.mul_pos_pos; [lia|apply Z.pow_pos_nonneg; lia]).
  rewrite Z2Pos.id in Hma, Hmb by lia.
  unfold cond_Zopp. rewrite Hma, Hmb.
  replace (Z.min (D a) (D b) - 53) with ez by (unfold ez; lia).
  f_equal.
  rewrite <- !Z.mul_assoc, <- !Z.pow_add_r by lia.
  replace (53 - D a + (D a - 53 - ea)) with (53 - Z.min (D a) (D b)) by lia.
  replace (53 - D b + (D b - 53 - eb)) with (53 - Z.min (D a) (D b)) by lia.
  ring.
Qed.

Lemma sub_bounded K x y : -1074 <= K <= 1021 -> bounded_by K x -> bounded_by K y ->
  bounded_by (K + 2) (sub x y).
Proof.
  intros HK Hx Hy. unfold sub, SFsub.
  destruct x as [sx| | |sx mx ex]; destruct y as [sy| | |sy my ey];
    cbv beta iota delta [bounded_by] in Hx, Hy; try contradiction.
  all: try (destruct sx, sy; exact I).
  all: try (cbv beta iota delta [bounded_by]; split; [lia|split; lia]).
  - cbv zeta.
    remember (Z.min ex ey) as ez eqn:Hez.
    pose proof (shl_align_spec mx ex ez) as H1. pose proof (shl_align_spec my ey ez) as H2.
    destruct (shl_align mx ex ez) as [ma ea]. destruct (shl_align my ey ez) as [mb eb].
    simpl fst. destruct H1 as [Hea Hma]. destruct H2 as [Heb Hmb].
    assert (Hba : Zpos ma < 2 ^ (K - ez)).
    { rewrite Hma. pose proof (D_upper (Zpos mx) ltac:(lia)).
      apply Z.lt_le_trans with (2 ^ D (Zpos mx) * 2 ^ (ex - ea)).
      - apply Z.mul_lt_mono_pos_r; [apply Z.pow_pos_nonneg; lia|lia].
      - rewrite <- Z.pow_add_r by (pose proof (D_nonneg (Zpos mx)); lia).
        apply Z.pow_le_mono_r; lia. }
    assert (Hbb : Zpos mb < 2 ^ (K - ez)).
    { rewrite Hmb. pose proof (D_upper (Zpos my) ltac:(lia)).
      apply Z.lt_le_trans with (2 ^ D (Zpos my) * 2 ^ (ey - eb)).
      - apply Z.mul_lt_mono_pos_r; [apply Z.pow_pos_nonneg; lia|lia].
      - rewrite <- Z.pow_add_r by (pose proof (D_nonneg (Zpos my)); lia).
        apply Z.pow_le_mono_r; lia. }
    assert (HKe : 0 <= K - ez).
    { destruct (Z.le_gt_cases 0 (K - ez)) as [?|Hneg]; [assumption|].
      rewrite Z.pow_neg_r in Hba by lia. lia. }
    set (d := cond_Zopp sx (Zpos ma) - cond_Zopp sy (Zpos mb)).
    assert (Hd : D d <= K - ez + 1).
    { assert (HDd : D (Z.abs d) <= K - ez + 1).
      { unfold d. replace (cond_Zopp sx (Zpos ma) - cond_Zopp sy (Zpos mb))
          with (cond_Zopp sx (Zpos ma) + cond_Zopp (negb sy) (Zpos mb))
          by (destruct sy; simpl; lia).
        apply D_abs_add; [destruct sx; simpl; lia|destruct sy; simpl; lia|lia]. }
      destruct d; simpl in HDd |- *; lia. }
    destruct (binary_normalize_bound d ez false ltac:(lia) ltac:(lia)) as [_ Hb].
    apply (bounded_by_weaken _ _ _ (ltac:(lia) : Z.max (D d + ez) (-1074) + 1 <= K + 2) Hb).
Qed.

Lemma div_core_spec m1 e1 m2 e2 : 0 <= m1 -> 0 < m2 ->
  let '(q, e', _) := SFdiv_core_binary 53 1024 m1 e1 m2 e2 in
  0 <= q /\ e' <= Z.max (D m1 + e1 - (D m2 + e2) - 53) (-1074) /\
  D q + e' <= Z.max (D m1 + e1 - (D m2 + e2) + 1) (-1074).
Proof.
  intros Hm1 Hm2. unfold SFdiv_core_binary. rewrite fexp_eq.
  set (e' := Z.min (Z.max (D m1 + e1 - (D m2 + e2) - 53) (-1074)) (e1 - e2)).
  assert (Hs : 0 <= e1 - e2 - e') by (unfold e'; lia).
  assert (Hm' : match e1 - e2 - e' with Zpos _ => Z.shiftl m1 (e1 - e2 - e') | Z0 => m1
                | Zneg _ => 0 end = m1 * 2 ^ (e1 - e2 - e')).
  { destruct (e1 - e2 - e') eqn:Es; [lia| |lia].
    rewrite Z.shiftl_mul_pow2 by lia. reflexivity. }
  cbv zeta. rewrite Hm'.
  set (s := e1 - e2 - e') in *.
  destruct (Z.div_eucl (m1 * 2 ^ s) m2) as [q r] eqn:E.
  assert (Hq : q = m1 * 2 ^ s / m2) by (unfold Z.div; rewrite E; reflexivity).
  pose proof (D_nonneg m1). pose proof (D_nonneg m2).
  assert (Hpos : 0 < 2 ^ s) by (apply Z.pow_pos_nonneg; lia).
  assert (1 <= D m2) by (rewrite D_log2 by lia; pose proof (Z.log2_nonneg m2); lia).
  split; [rewrite Hq; apply Z.div_pos; nia|].
  split; [unfold e'; lia|].
  set (k := Z.max (D m1 + s - D m2 + 1) 0).
  assert (Hqk : q < 2 ^ k).
  { rewrite Hq. apply Z.div_lt_upper_bound; [lia|].
    apply Z.lt_le_trans with (2 ^ (D m1 + s)).
    - rewrite Z.pow_add_r by lia. apply Z.mul_lt_mono_pos_r; [lia|]. apply D_upper. lia.
    - apply Z.le_trans with (2 ^ (D m2 - 1) * 2 ^ k).
      + rewrite <- Z.pow_add_r by (unfold k; lia). apply Z.pow_le_mono_r; unfold k; lia.
      + apply Z.mul_le_mono_nonneg_r; [apply Z.pow_nonneg; lia|]. apply D_lower. lia. }
  assert (HDq : D q <= k).
  { apply D_le; [rewrite Hq; apply Z.div_pos; nia|unfold k; lia|exact Hqk]. }
  unfold k, s in HDq. unfold e' in *. lia.
Qed.

Lemma div_bounded K x sy my ey : bounded_by K x ->
  K - (D (Zpos my) + ey) <= 1021 ->
  bounded_by (Z.max (K - (D (Zpos my) + ey) + 1) (-1074) + 1) (div x (S754_finite sy my ey)).
Proof.
  intros Hx HK. unfold div, SFdiv.
  destruct x as [sx| | |sx mx ex]; cbv beta iota delta [bounded_by] in Hx; try contradiction.
  - exact I.
  - pose proof (div_core_spec (Zpos mx) ex (Zpos my) ey ltac:(lia) ltac:(lia)) as H.
    destruct (SFdiv_core_binary 53 1024 (Zpos mx) ex (Zpos my) ey) as [[q e'] l].
    destruct H as (Hq & He' & HDq).
    apply (bounded_by_weaken (Z.max (D q + e') (-1074) + 1)); [lia|].
    apply binary_round_aux_bound; lia.
Qed.

Lemma div_finite_not_nan sx mx ex sy my ey :
  div (S754_finite sx mx ex) (S754_finite sy my ey) <> S754_nan.
Proof.
  unfold div, SFdiv.
  pose proof (div_core_spec (Zpos mx) ex (Zpos my) ey ltac:(lia) ltac:(lia)) as H.
  destruct (SFdiv_core_binary 53 1024 (Zpos mx) ex (Zpos my) ey) as [[q e'] l].
  destruct H as (Hq & _ & _).
  pose proof (binary_round_aux_sign (xorb sx sy) q e' l Hq) as Hs.
  destruct (binary_round_aux 53 1024 (xorb sx sy) q e' l); congruence.
Qed.

Lemma mul_finite_not_nan sx mx ex sy my ey :
  mul (S754_finite sx mx ex) (S754_finite sy my ey) <> S754_nan.
Proof.
  unfold mul, SFmul.
  pose proof (binary_round_aux_sign (xorb sx sy) (Zpos (mx * my)) (ex + ey) loc_Exact
    ltac:(lia)) as Hs.
  destruct (binary_round_aux 53 1024 _ _ _ _); congruence.
Qed.

(** On two positive floats with at most 53 mantissa digits, [<] bounds
    the magnitudes. *)
Lemma ltb_pos_mag ma ea mb eb : D (Zpos ma) <= 53 ->
  SFltb (S754_finite false ma ea) (S754_finite false mb eb) = true ->
  D (Zpos ma) + ea <= D (Zpos mb) + eb + 52.
Proof.
  intros HDa H. unfold SFltb, SFcompare in H.
  assert (1 <= D (Zpos mb)) by (rewrite D_log2 by lia; pose proof (Z.log2_nonneg (Zpos mb)); lia).
  destruct (Z.compare_spec ea eb) as [->|Hlt|Hgt]; [|lia|discriminate].
  change (Pos.compare_cont Eq ma mb) with (Pos.compare ma mb) in H.
  destruct (Pos.compare_spec ma mb) as [->|Hlt|Hgt]; try discriminate.
  pose proof (D_mono (Zpos ma) (Zpos mb) ltac:(lia)). lia.
Qed.

Lemma of_Z_sub_nonneg h : 20 <= h < 2 ^ 53 ->
  match sub (of_Z h) (of_Z 20) with
  | S754_zero _ => True
  | S754_finite s m e => s = false /\ e <= 971 /\ D (Zpos m) + e <= 55 /\ D (Zpos m) <= 53
  | _ => False
  end.
Proof.
  intro Hh. assert (HDh : D h <= 53) by (apply D_le; lia).
  rewrite sub_of_Z by (lia || (cbv; intro; discriminate)).
  set (k := 53 - Z.min (D h) (D 20)).
  assert (Hk : 0 <= k) by (unfold k; pose proof (D_nonneg h); lia).
  assert (HD : D ((h - 20) * 2 ^ k) + (Z.min (D h) (D 20) - 53) <= 53).
  { destruct (Z.eq_dec h 20) as [->|Hne]; [simpl; lia|].
    rewrite D_mul_pow2 by lia. unfold k.
    pose proof (D_mono (h - 20) h ltac:(lia)). lia. }
  destruct (binary_normalize_bound ((h - 20) * 2 ^ k) (Z.min (D h) (D 20) - 53) false
    ltac:(pose proof (D_nonneg h); lia) ltac:(lia)) as [Hs Hb].
  destruct (binary_normalize 53 1024 _ _ _); try contradiction; trivial.
  cbv beta iota delta [bounded_by] in Hb.
  split; [rewrite Hs; apply Z.ltb_ge; pose proof (Z.pow_nonneg 2 k); nia|lia].
Qed.

Lemma ltb_leb a b : SFltb a b = true -> SFleb a b = true.
Proof. unfold SFltb, SFleb. destruct (SFcompare a b) as [[]|]; congruence. Qed.

(** [Math.max(lo, Math.min(hi, x))] for constants [lo <= hi] and an [x]
    that is not NaN lies in [[lo, hi]]. *)
Lemma clamp_range lo hi x : is_finite lo = true -> is_finite hi = true ->
  SFleb lo hi = true -> SFleb lo lo = true -> SFleb hi hi = true ->
  (forall s, lo <> S754_zero s) -> (forall s, hi <> S754_zero s) ->
  x <> S754_nan ->
  SFleb lo (js_max lo (js_min hi x)) = true /\ SFleb (js_max lo (js_min hi x)) hi = true.
Proof.
  intros Flo Fhi Hlh Hll Hhh Zlo Zhi Hx.
  assert (Hm : js_min hi x = if SFltb x hi then x else hi).
  { destruct hi as [s| | |s m e]; try discriminate; [exfalso; exact (Zhi s eq_refl)|].
    destruct x; [reflexivity|reflexivity|contradiction|reflexivity]. }
  set (m := js_min hi x) in *.
  assert (Hmn : m <> S754_nan /\ SFleb m hi = true).
  { rewrite Hm. destruct (SFltb x hi) eqn:E.
    - split; [exact Hx|apply ltb_leb; exact E].
    - split; [destruct hi; discriminate|exact Hhh]. }
  destruct Hmn as [Hmn Hmh].
  assert (HM : js_max lo m = if SFltb lo m then m else lo).
  { destruct lo as [s| | |s mm e]; try discriminate; [exfalso; exact (Zlo s eq_refl)|].
    destruct m; [reflexivity|reflexivity|contradiction|reflexivity]. }
  rewrite HM. destruct (SFltb lo m) eqn:E.
  - split; [apply ltb_leb; exact E|exact Hmh].
  - split; [exact Hll|exact Hlh].
Qed.

Lemma of_Z_nonneg z : 0 <= z -> is_nonneg (of_Z z) = true.
Proof.
  intro Hz. destruct z as [|p|p]; [reflexivity| |lia].
  pose proof (binary_round_sign false p 0) as H. unfold of_Z. simpl binary_normalize.
  destruct (binary_round 53 1024 false p 0); try contradiction; subst; reflexivity.
Qed.

Lemma sub_finite_not_nan x y : is_finite x = true -> is_finite y = true ->
  sub x y <> S754_nan.
Proof.
  intros Hx Hy. unfold sub, SFsub.
  destruct x as [sx| | |sx mx ex]; destruct y as [sy| | |sy my ey]; try discriminate.
  - destruct sx, sy; discriminate.
  - cbv zeta. pose proof (binary_normalize_sign
      (cond_Zopp sx (Zpos (fst (shl_align mx ex (Z.min ex ey)))) -
       cond_Zopp sy (Zpos (fst (shl_align my ey (Z.min ex ey))))) (Z.min ex ey) false) as H.
    destruct (binary_normalize 53 1024 _ _ _); congruence.
Qed.

(** A product of two numbers that are neither NaN nor infinite is not NaN,
    nor is a product of a number that is not NaN with a non-zero
    finite constant. *)
Lemma mul_finite_finite_not_nan x y : is_finite x = true -> is_finite y = true ->
  mul x y <> S754_nan.
Proof.
  intros Hx Hy.
  destruct x as [sx| | |sx mx ex]; destruct y as [sy| | |sy my ey]; try discriminate;
    try (unfold mul, SFmul; discriminate).
  apply mul_finite_not_nan.
Qed.

Lemma mul_const_not_nan x sy my ey : x <> S754_nan ->
  mul x (S754_finite sy my ey) <> S754_nan.
Proof.
  intro Hx. destruct x as [sx|sx| |sx mx ex]; try (unfold mul, SFmul; discriminate).
  - contradiction.
  - apply mul_finite_not_nan.
Qed.

End JsNumberFacts.

Module LocalVisionProofs.
Import LocalVision.
Local Open Scope Z_scope.

(** What the retry loop does to the configuration and the breaker. *)
Lemma retry_loop_breaker (env : CallEnv) : forall fuel a rc p r p' n,
  retry_loop env fuel a rc p = (r, p', n) ->
  config p' = config p /\ isInitialized p' = isInitialized p /\
  (r = Err ProcessingFailed ->
   circuitBreaker p' =
     breaker_failure (config p) (clock_fail env) (clock_open env) (circuitBreaker p)) /\
  (forall t, r = Ok t -> circuitBreaker p' = breaker_success (circuitBreaker p)).
Proof.
  induction fuel as [|fuel IH]; intros a rc p r p' n H; simpl in H.
  - unfold after_loop in H; destruct (rc =? 0);
      injection H as <- <- <-; simpl; repeat split; congruence.
  - destruct (Z.of_nat a <=? maxRetries (config p)).
    + destruct (attempt_result env a) as [content|].
      * injection H as <- <- <-.
        destruct (0 <? rc); simpl; repeat split; congruence.
      * destruct (Z.of_nat a =? maxRetries (config p)).
        -- injection H as <- <- <-; simpl; repeat split; congruence.
        -- apply IH in H; simpl in H; exact H.
    + unfold after_loop in H; destruct (rc =? 0);
        injection H as <- <- <-; simpl; repeat split; congruence.
Qed.

Lemma after_loop_stats (env : CallEnv) (a : nat) (p : Provider) r p' n :
  after_loop env (Z.of_nat a) p a = (r, p', n) ->
  n = a /\ stats p' = incr_failedRequests (stats p) /\
  (r = Err ProcessingFailed \/ (r = Err NullLastError /\ a = 0%nat)).
Proof.
  unfold after_loop; destruct (Z.of_nat a =? 0) eqn:E;
    intro H; injection H as <- <- <-; simpl; repeat split;
    [right; split; [reflexivity|lia] | left; reflexivity].
Qed.

(** What the retry loop does to the counters, for [retryCount = attempt]. *)
Lemma retry_loop_stats (env : CallEnv) : forall fuel a p r p' n,
  retry_loop env fuel a (Z.of_nat a) p = (r, p', n) ->
  totalRequests (stats p') = totalRequests (stats p) /\
  ((exists t, r = Ok t /\ (a < n)%nat /\
     totalRetries (stats p') = totalRetries (stats p) + Z.of_nat (n - 1 - a) /\
     retriedRequests (stats p') =
       retriedRequests (stats p) + (if (1 <? n)%nat then 1 else 0)) \/
   (exists e, r = Err e /\ (a <= n)%nat /\
     (e = ProcessingFailed \/ (e = NullLastError /\ n = 0%nat)) /\
     totalRetries (stats p') = totalRetries (stats p) + Z.of_nat (n - a) /\
     retriedRequests (stats p') = retriedRequests (stats p))).
Proof.
  induction fuel as [|fuel IH]; intros a p r p' n H; simpl in H.
  - apply after_loop_stats in H as (-> & Hs & Hr).
    rewrite Hs; simpl; split; [reflexivity|right].
    destruct Hr as [-> | [-> ->]]; eexists; (split; [reflexivity|]);
      rewrite Nat.sub_diag; simpl; repeat split; try lia; auto.
  - destruct (Z.of_nat a <=? maxRetries (config p)).
    + destruct (attempt_result env a) as [content|].
      * injection H as <- <- <-.
        split; [destruct (0 <? Z.of_nat a); reflexivity|].
        left; exists (JsString.trim content); split; [reflexivity|].
        split; [lia|].
        replace (S a - 1 - a)%nat with 0%nat by lia.
        destruct (0 <? Z.of_nat a) eqn:E1, (1 <? S a)%nat eqn:E2; simpl;
          [lia| | |lia];
          [apply Z.ltb_lt in E1; apply Nat.ltb_ge in E2
          |apply Z.ltb_ge in E1; apply Nat.ltb_lt in E2]; lia.
      * destruct (Z.of_nat a =? maxRetries (config p)).
        -- injection H as <- <- <-.
           replace (S a - a)%nat with 1%nat by lia; simpl; split; [reflexivity|].
           right; exists ProcessingFailed.
           split; [reflexivity|]. split; [lia|]. split; [left; reflexivity|].
           split; [lia|reflexivity].
        -- replace (Z.of_nat a + 1) with (Z.of_nat (S a)) in H by lia.
           apply IH in H; simpl in H.
           destruct H as [Hreq [(t & Hr & Hlt & Htr & Hrr)
                               | (e & Hr & Hle & He & Htr & Hrr)]].
           ++ split; [exact Hreq|]. left; exists t.
              split; [exact Hr|]. split; [lia|]. split; [lia|]. lia.
           ++ split; [exact Hreq|]. right; exists e.
              split; [exact Hr|]. split; [lia|].
              split; [destruct He as [He|[He Hn]]; [left; exact He|lia]|].
              split; lia.
    + apply after_loop_stats in H as (-> & Hs & Hr).
      rewrite Hs; simpl; split; [reflexivity|right].
      destruct Hr as [-> | [-> ->]]; eexists; (split; [reflexivity|]);
        rewrite Nat.sub_diag; simpl; repeat split; try lia; auto.
Qed.

Lemma checkCircuitBreaker_error now cb e :
  checkCircuitBreaker now cb = inr e -> exists s, e = CircuitOpen s.
Proof.
  unfold checkCircuitBreaker; destruct (state cb);
    try discriminate; destruct (nextAttemptTime cb <=? now); try discriminate.
  intro H; injection H as <-; eexists; reflexivity.
Qed.

Lemma checkCircuitBreaker_not_open now cb :
  state cb <> OPEN -> checkCircuitBreaker now cb = inl cb.
Proof.
  unfold checkCircuitBreaker; destruct (state cb); congruence.
Qed.

(** A call that ends in [ProcessingFailed] passed the breaker check and
    then ran [recordFailure] once. *)
Lemma ocr_failed_breaker env p p' n :
  ocr env p = (Err ProcessingFailed, p', n) ->
  config p' = config p /\ isInitialized p' = true /\
  exists cb, checkCircuitBreaker (clock_check env) (circuitBreaker p) = inl cb /\
    circuitBreaker p' =
      breaker_failure (config p) (clock_fail env) (clock_open env) cb.
Proof.
  unfold ocr; intro H.
  destruct (negb (isInitialized p) && negb (ollama_ready env)); [discriminate|].
  destruct (negb (image_exists env)); [discriminate|].
  destruct (checkCircuitBreaker (clock_check env) (circuitBreaker (set_initialized p)))
    as [cb|e] eqn:Hc.
  - apply retry_loop_breaker in H as (Hcfg & Hinit & Hfail & _).
    rewrite Hcfg, Hinit; simpl. repeat split.
    exists cb; split; [exact Hc|]. rewrite (Hfail eq_refl); reflexivity.
  - injection H as He _ _.
    apply checkCircuitBreaker_error in Hc as [s Hs]; congruence.
Qed.

(** One failed call below the threshold, from a breaker that is not
    [OPEN]: the state is kept and the count goes up by one. *)
Lemma failed_call_below_threshold env p p' n :
  circuitBreakerThreshold (config p) = 5 ->
  state (circuitBreaker p) <> OPEN ->
  failureCount (circuitBreaker p) < 4 ->
  ocr env p = (Err ProcessingFailed, p', n) ->
  config p' = config p /\
  state (circuitBreaker p') = state (circuitBreaker p) /\
  failureCount (circuitBreaker p') = failureCount (circuitBreaker p) + 1.
Proof.
  intros Hth Hst Hfc H.
  apply ocr_failed_breaker in H as (Hcfg & _ & cb & Hc & Hb).
  rewrite checkCircuitBreaker_not_open in Hc by exact Hst.
  injection Hc as <-. rewrite Hb. unfold breaker_failure.
  rewrite Hth. destruct (5 <=? failureCount (circuitBreaker p) + 1) eqn:E.
  - apply Z.leb_le in E; lia.
  - simpl; repeat split; auto.
Qed.

(** C1. With failure threshold 5: after five consecutive [ocr] calls that
    each exhaust their retries and fail, starting from a breaker that is not
    [OPEN] and has no recorded failures (as a fresh provider), the breaker is
    [OPEN] with its next attempt [circuitBreakerTimeout] after the last
    failure; any later call on an existing image made before that time throws
    the circuit-open error, makes no backend attempt and leaves the provider,
    and so [totalRequests], unchanged. *)
Theorem circuit_opens_after_threshold_failures
  (p0 p1 p2 p3 p4 p5 : Provider) (e1 e2 e3 e4 e5 : CallEnv)
  (n1 n2 n3 n4 n5 : nat) :
  circuitBreakerThreshold (config p0) = 5 ->
  state (circuitBreaker p0) <> OPEN ->
  failureCount (circuitBreaker p0) = 0 ->
  ocr e1 p0 = (Err ProcessingFailed, p1, n1) ->
  ocr e2 p1 = (Err ProcessingFailed, p2, n2) ->
  ocr e3 p2 = (Err ProcessingFailed, p3, n3) ->
  ocr e4 p3 = (Err ProcessingFailed, p4, n4) ->
  ocr e5 p4 = (Err ProcessingFailed, p5, n5) ->
  state (circuitBreaker p5) = OPEN /\
  nextAttemptTime (circuitBreaker p5) = clock_open e5 + circuitBreakerTimeout (config p0) /\
  forall e6, image_exists e6 = true ->
    clock_check e6 < nextAttemptTime (circuitBreaker p5) ->
    exists s, ocr e6 p5 = (Err (CircuitOpen s), p5, 0%nat).
Proof.
  intros Hth Hst Hfc H1 H2 H3 H4 H5.
  apply failed_call_below_threshold in H1 as (C1 & S1 & F1); [|exact Hth|exact Hst|lia].
  apply failed_call_below_threshold in H2 as (C2 & S2 & F2); [|congruence|congruence|lia].
  apply failed_call_below_threshold in H3 as (C3 & S3 & F3); [|congruence|congruence|lia].
  apply failed_call_below_threshold in H4 as (C4 & S4 & F4); [|congruence|congruence|lia].
  apply ocr_failed_breaker in H5 as (C5 & I5 & cb & Hc & Hb).
  rewrite checkCircuitBreaker_not_open in Hc by congruence.
  injection Hc as <-.
  assert (Hcfg : config p4 = config p0) by congruence.
  assert (Hopen : state (circuitBreaker p5) = OPEN /\
    nextAttemptTime (circuitBreaker p5) = clock_open e5 + circuitBreakerTimeout (config p0)).
  { rewrite Hb; unfold breaker_failure; rewrite Hcfg, Hth.
    replace (5 <=? failureCount (circuitBreaker p4) + 1) with true
      by (symmetry; apply Z.leb_le; lia).
    split; reflexivity. }
  destruct Hopen as [Hopen Hnext].
  split; [exact Hopen|]. split; [exact Hnext|].
  intros e6 Hex Hnow.
  unfold ocr. rewrite I5, Hex. simpl negb. cbv iota beta.
  unfold checkCircuitBreaker at 1. simpl circuitBreaker. rewrite Hopen.
  replace (nextAttemptTime (circuitBreaker p5) <=? clock_check e6) with false
    by (symmetry; apply Z.leb_gt; exact Hnow).
  eexists.
  destruct p5 as [c i s b]; simpl in I5; subst i; reflexivity.
Qed.

Lemma circuit_opens_after_threshold_failures_witness :
  state (circuitBreaker (fails 5)) = OPEN /\
  nextAttemptTime (circuitBreaker (fails 5)) = 0 + 60000 /\
  forall e6, image_exists e6 = true ->
    clock_check e6 < nextAttemptTime (circuitBreaker (fails 5)) ->
    exists s, ocr e6 (fails 5) = (Err (CircuitOpen s), fails 5, 0%nat).
Proof.
  apply (circuit_opens_after_threshold_failures new_provider
           (fails 1) (fails 2) (fails 3) (fails 4) (fails 5)
           (failing_env 0) (failing_env 0) (failing_env 0) (failing_env 0)
           (failing_env 0) 4 4 4 4 4);
    vm_compute; first [reflexivity | discriminate].
Defined.

(** C2 (failing input). A fresh provider whose backend always fails: five
    failed calls at time 0 open the breaker until time 60000; a call at time
    60000 moves it to [HALF_OPEN] and its probe fails on every attempt, yet
    the breaker stays [HALF_OPEN] with one recorded failure, because
    [recordFailure] only reopens at the threshold of 5. *)
Lemma half_open_failed_probe_stays_half_open :
  state (circuitBreaker (fails 5)) = OPEN /\
  nextAttemptTime (circuitBreaker (fails 5)) = 60000 /\
  let '(r, p', n) := ocr (failing_env 60000) (fails 5) in
  r = Err ProcessingFailed /\ n = 4%nat /\
  state (circuitBreaker p') = HALF_OPEN /\
  failureCount (circuitBreaker p') = 1.
Proof. vm_compute. repeat split. Qed.

(** C8 (amended). The counters of one [ocr] call, for [maxRetries >= 0]
    (the constructor sets 3). A call rejected before the retry loop (failed
    initialisation, missing image, open circuit) makes no backend attempt
    and changes no counter. Otherwise, with [n] the number of backend
    attempts made: [totalRequests] goes up by exactly one; [totalRetries]
    goes up once per failed attempt, that is [n - 1] for a call that succeeds
    on its [n]-th attempt and [n] for a call that fails; [retriedRequests]
    goes up by one exactly when the call succeeds after at least one failed
    attempt, and not at all for a call that fails. *)
Theorem ocr_counters_per_call env p r p' n :
  0 <= maxRetries (config p) ->
  ocr env p = (r, p', n) ->
  (n = 0%nat /\ stats p' = stats p) \/
  ((0 < n)%nat /\
   totalRequests (stats p') = totalRequests (stats p) + 1 /\
   ((exists t, r = Ok t /\
      totalRetries (stats p') = totalRetries (stats p) + Z.of_nat n - 1 /\
      retriedRequests (stats p') =
        retriedRequests (stats p) + (if (1 <? n)%nat then 1 else 0)) \/
    (r = Err ProcessingFailed /\
      totalRetries (stats p') = totalRetries (stats p) + Z.of_nat n /\
      retriedRequests (stats p') = retriedRequests (stats p)))).
Proof.
  intros Hmax H; unfold ocr in H.
  destruct (negb (isInitialized p) && negb (ollama_ready env)).
  { injection H as _ <- <-; left; split; reflexivity. }
  destruct (negb (image_exists env)).
  { injection H as _ <- <-; left; split; reflexivity. }
  destruct (checkCircuitBreaker (clock_check env) (circuitBreaker (set_initialized p)))
    as [cb|e].
  2: { injection H as _ <- <-; left; split; reflexivity. }
  right.
  set (p1 := set_stats (incr_totalRequests (stats (set_initialized p)))
                       (set_breaker cb (set_initialized p))) in H.
  assert (Hc : config p1 = config p) by reflexivity.
  rewrite Hc in H. cbn [retry_loop] in H. rewrite Hc in H.
  replace (Z.of_nat 0 <=? maxRetries (config p)) with true in H
    by (symmetry; apply Z.leb_le; simpl; lia).
  destruct (attempt_result env 0) as [content|].
  - injection H as <- <- <-. subst p1. simpl.
    split; [lia|]. split; [reflexivity|].
    left; exists (JsString.trim content); repeat split; lia.
  - destruct (Z.of_nat 0 =? maxRetries (config p)).
    + injection H as <- <- <-. subst p1. simpl.
      split; [lia|]. split; [reflexivity|]. right; repeat split; lia.
    + change (Z.of_nat 0 + 1) with (Z.of_nat 1) in H.
      apply retry_loop_stats in H; subst p1; simpl in H.
      destruct H as [Hreq [(t & Hr & Hlt & Htr & Hrr)
                          | (e & Hr & Hle & He & Htr & Hrr)]].
      * split; [lia|]. split; [exact Hreq|].
        left; exists t; split; [exact Hr|]. split; [lia|exact Hrr].
      * split; [lia|]. split; [exact Hreq|].
        destruct He as [-> | [_ Hn]]; [|lia].
        right; split; [exact Hr|]. split; [lia|exact Hrr].
Qed.

Lemma ocr_counters_per_call_witness :
  let e := flaky_env 2 "hi" 0 in
  let p' := after_call e new_provider in
  ocr e new_provider = (Ok "hi", p', 3%nat) /\
  ((3%nat = 0%nat /\ stats p' = stats new_provider) \/
   ((0 < 3)%nat /\
    totalRequests (stats p') = totalRequests (stats new_provider) + 1 /\
    ((exists t, Ok "hi" = Ok t /\
       totalRetries (stats p') = totalRetries (stats new_provider) + Z.of_nat 3 - 1 /\
       retriedRequests (stats p') =
         retriedRequests (stats new_provider) + (if (1 <? 3)%nat then 1 else 0)) \/
     (Ok "hi" = Err ProcessingFailed /\
       totalRetries (stats p') = totalRetries (stats new_provider) + Z.of_nat 3 /\
       retriedRequests (stats p') = retriedRequests (stats new_provider))))).
Proof.
  intros e p'. split; [vm_compute; reflexivity|].
  apply (ocr_counters_per_call e new_provider (Ok "hi") p' 3);
    vm_compute; first [reflexivity | discriminate].
Defined.

(** C8 (counterexample). On a fresh provider whose backend fails every
    attempt, one [ocr] call makes four attempts and fails: [totalRetries]
    goes up by four, once per failed attempt, and [retriedRequests] does not
    move, although the call needed more than one attempt. *)
Lemma ocr_counters_counterexample :
  let '(r, p', n) := ocr (failing_env 0) new_provider in
  r = Err ProcessingFailed /\ n = 4%nat /\
  totalRequests (stats p') = 1 /\
  totalRetries (stats p') = 4 /\ retriedRequests (stats p') = 0.
Proof. vm_compute. repeat split. Qed.

End LocalVisionProofs.

Module HocrProofs.
Import Hocr.
Local Open Scope Z_scope.

Lemma parse_digits_acc_nonneg : forall d acc, 0 <= acc -> 0 <= parse_digits_acc acc d.
Proof.
  induction d as [|c d IH]; intros acc Hacc; cbn [parse_digits_acc]; [exact Hacc|].
  apply IH; lia.
Qed.

Lemma parseInt_nonneg d : JsNumber.is_nonneg (parseInt d) = true.
Proof. apply JsNumberFacts.of_Z_nonneg, parse_digits_acc_nonneg; lia. Qed.

Lemma in_collect_words : forall ms w,
  In w (collect_words ms) -> exists m, In m ms /\ word_of_match m = Some w.
Proof.
  induction ms as [|m ms IH]; simpl; intros w H; [contradiction|].
  destruct (word_of_match m) as [w'|] eqn:E.
  - destruct H as [<- | H].
    + exists m; split; [left; reflexivity | exact E].
    + destruct (IH w H) as (m' & Hin & Hw); exists m'; split; [right|]; assumption.
  - destruct (IH w H) as (m' & Hin & Hw); exists m'; split; [right|]; assumption.
Qed.

(** C3 (amended). For every input, [parseHocr] returns a list (it is a
    total function), and every word in it comes from a match of [wordRegex]
    whose title attribute is non-empty, whose text is the trimmed, non-empty
    inner text of the span, and whose title contains a well-formed
    [bbox d d d d] whose four digit runs, read by [parseInt], are the word's
    box; each coordinate is [+0], a positive number or Infinity (a run of
    more than 308 digits). The box is taken as written: nothing compares
    [x1] with [x0] or [y1] with [y0]. *)
Theorem parseHocr_words_well_formed (s : string) (w : WordPosition) :
  In w (parseHocr s) ->
  exists titleAttr inner d1 d2 d3 d4,
    In (titleAttr, inner) (word_matches (S (String.length s)) s) /\
    JsString.nonempty titleAttr = true /\
    text w = JsString.trim inner /\ JsString.nonempty (text w) = true /\
    exec_first bbox_at titleAttr = Some (d1, d2, d3, d4) /\
    bbox w = {| x0 := parseInt d1; y0 := parseInt d2;
                x1 := parseInt d3; y1 := parseInt d4 |} /\
    JsNumber.is_nonneg (x0 (bbox w)) = true /\ JsNumber.is_nonneg (y0 (bbox w)) = true /\
    JsNumber.is_nonneg (x1 (bbox w)) = true /\ JsNumber.is_nonneg (y1 (bbox w)) = true.
Proof.
  unfold parseHocr; intro H.
  apply in_collect_words in H as ([titleAttr inner] & Hin & Hw).
  unfold word_of_match in Hw.
  destruct (JsString.nonempty titleAttr) eqn:Ht; [|discriminate].
  destruct (JsString.nonempty (JsString.trim inner)) eqn:Hi; [|discriminate].
  simpl in Hw.
  destruct (exec_first bbox_at titleAttr) as [[[[d1 d2] d3] d4]|] eqn:Hb;
    [|discriminate].
  destruct (JsString.nonempty d1 && JsString.nonempty d2
            && JsString.nonempty d3 && JsString.nonempty d4)%bool; [|discriminate].
  injection Hw as <-.
  exists titleAttr, inner, d1, d2, d3, d4; simpl.
  repeat split; auto using parseInt_nonneg.
Qed.

Lemma parseHocr_words_well_formed_witness :
  exists w, In w (parseHocr inverted_box_hocr) /\
  exists titleAttr inner d1 d2 d3 d4,
    In (titleAttr, inner)
       (word_matches (S (String.length inverted_box_hocr)) inverted_box_hocr) /\
    JsString.nonempty titleAttr = true /\
    text w = JsString.trim inner /\ JsString.nonempty (text w) = true /\
    exec_first bbox_at titleAttr = Some (d1, d2, d3, d4) /\
    bbox w = {| x0 := parseInt d1; y0 := parseInt d2;
                x1 := parseInt d3; y1 := parseInt d4 |} /\
    JsNumber.is_nonneg (x0 (bbox w)) = true /\ JsNumber.is_nonneg (y0 (bbox w)) = true /\
    JsNumber.is_nonneg (x1 (bbox w)) = true /\ JsNumber.is_nonneg (y1 (bbox w)) = true.
Proof.
  exists {| text := "Courage";
            bbox := {| x0 := JsNumber.of_Z 129; y0 := JsNumber.of_Z 29;
                       x1 := JsNumber.of_Z 54; y1 := JsNumber.of_Z 10 |};
            confidence := Some (JsNumber.of_Z 96) |}.
  assert (Hin : In {| text := "Courage";
                      bbox := {| x0 := JsNumber.of_Z 129; y0 := JsNumber.of_Z 29;
                                 x1 := JsNumber.of_Z 54; y1 := JsNumber.of_Z 10 |};
                      confidence := Some (JsNumber.of_Z 96) |}
                   (parseHocr inverted_box_hocr))
    by (vm_compute; left; reflexivity).
  split; [exact Hin|].
  exact (parseHocr_words_well_formed inverted_box_hocr _ Hin).
Defined.

(** C3 (counterexample). A well-formed Tesseract word span whose box is
    inverted is stored as it is: the parsed word has [x1 < x0] and
    [y1 < y0]. *)
Lemma parseHocr_inverted_box_kept :
  parseHocr inverted_box_hocr =
    [{| text := "Courage";
        bbox := {| x0 := JsNumber.of_Z 129; y0 := JsNumber.of_Z 29;
                   x1 := JsNumber.of_Z 54; y1 := JsNumber.of_Z 10 |};
        confidence := Some (JsNumber.of_Z 96) |}] /\
  JsNumber.ltb (JsNumber.of_Z 54) (JsNumber.of_Z 129) = true /\
  JsNumber.ltb (JsNumber.of_Z 10) (JsNumber.of_Z 29) = true.
Proof. vm_compute. repeat split. Qed.

End HocrProofs.

Module SearchablePdfProofs.
Import JsNumber JsNumberFacts SearchablePdf.
Local Open Scope Z_scope.
Local Abbreviation D := Zdigits2.

(** The font size of a plain text layer lies in [[4, 14]] on a page whose
    width is in [[0, 2^53)] and whose height is in [[20, 2^53)]. *)
Lemma calculateFontSize_clamped text w h : 0 <= w < 2 ^ 53 -> 20 <= h < 2 ^ 53 ->
  SFleb (of_Z 4) (calculateFontSize text (of_Z w) (of_Z h)) = true /\
  SFleb (calculateFontSize text (of_Z w) (of_Z h)) (of_Z 14) = true.
Proof.
  intros Hw Hh. unfold calculateFontSize. cbv zeta.
  replace (mul (of_Z 2) (of_Z 10)) with (of_Z 20) by (vm_compute; reflexivity).
  replace (mul (of_Z 80) (lit 5 10)) with (S754_finite false 5629499534213120 (-47))
    by (vm_compute; reflexivity).
  set (fs := div (sub (of_Z w) (of_Z 20)) (S754_finite false 5629499534213120 (-47))).
  assert (Hfs : bounded_by 52 fs).
  { assert (Haw : bounded_by 56 (sub (of_Z w) (of_Z 20))).
    { apply (sub_bounded 54); [lia| |].
      - apply (bounded_by_weaken (53 + 1)); [lia|]. apply of_Z_bounded; lia.
      - apply (bounded_by_weaken (53 + 1)); [lia|]. apply of_Z_bounded; [|lia].
        split; [lia|reflexivity]. }
    pose proof (div_bounded 56 _ false 5629499534213120 (-47) Haw) as H.
    replace (D (Zpos 5629499534213120)) with 53 in H by reflexivity.
    apply (bounded_by_weaken _ _ _
             (ltac:(lia) : Z.max (56 - (53 + -47) + 1) (-1074) + 1 <= 52)).
    apply H. lia. }
  assert (Fs : is_finite fs = true) by (destruct fs; simpl in Hfs; tauto || reflexivity).
  set (ah := sub (of_Z h) (of_Z 20)).
  pose proof (of_Z_sub_nonneg h Hh) as Hah. fold ah in Hah.
  set (rh := mul (mul (js_ceil (div (of_Z (Z.of_nat (String.length text))) (of_Z 80))) fs)
                 (lit 12 10)).
  apply clamp_range; try reflexivity; try discriminate.
  unfold gtb. destruct (SFltb ah rh) eqn:Hlt; [|destruct fs; discriminate].
  assert (Hq : is_finite (div ah rh) = true).
  { destruct ah as [sa| | |sa ma ea]; try contradiction.
    - destruct rh as [sr|sr| |sr mr er]; try reflexivity;
        exfalso; simpl in Hlt; discriminate Hlt.
    - destruct Hah as (-> & Hea & HKa & HDa).
      destruct rh as [sr|sr| |sr mr er]; try reflexivity;
        try (exfalso; simpl in Hlt; discriminate Hlt).
      destruct sr; [exfalso; simpl in Hlt; discriminate Hlt|].
      pose proof (ltb_pos_mag ma ea mr er HDa Hlt) as Hmag.
      pose proof (div_bounded (D (Zpos ma) + ea) (S754_finite false ma ea) false mr er
        ltac:(cbv beta iota delta [bounded_by]; lia) ltac:(lia)) as Hb.
      destruct (div (S754_finite false ma ea) (S754_finite false mr er)); simpl in Hb;
        tauto || reflexivity. }
  apply mul_finite_finite_not_nan; assumption.
Qed.

(** C4 (amended). [calculateFontSize] computes in binary64. For a page
    whose width is an integer in [[0, 2^53)] and whose height is an
    integer in [[2 * margin, 2^53)], the font size it returns is a number
    (never NaN) between 4 and 14. Nothing more is guaranteed about the
    height budget (see the counterexample). *)
Theorem calculateFontSize_budget (text : string) (pageWidth pageHeight : Z) :
  0 <= pageWidth < 2 ^ 53 -> 20 <= pageHeight < 2 ^ 53 ->
  let f := calculateFontSize text (of_Z pageWidth) (of_Z pageHeight) in
  SFleb (of_Z 4) f = true /\ SFleb f (of_Z 14) = true.
Proof. intros Hw Hh f. exact (calculateFontSize_clamped text pageWidth pageHeight Hw Hh). Qed.

Lemma calculateFontSize_budget_witness :
  (0 <= 600 < 2 ^ 53 /\ 20 <= 100 < 2 ^ 53) /\
  (let f := calculateFontSize (letters 500) (of_Z 600) (of_Z 100) in
   SFleb (of_Z 4) f = true /\ SFleb f (of_Z 14) = true).
Proof.
  split; [split; lia|].
  apply calculateFontSize_budget; lia.
Defined.

(** C4 (counterexample). The estimated height can exceed the page height
    minus the two margins, in two ways.
    - 8000 characters (100 estimated lines) on a page 600 wide and 100
      high: the scaled size is below the 4-point floor, so the function
      returns 4, and the estimate is 480, above the budget of 80.
    - 81 characters (2 lines) on a page 217 wide and 31 high: the size is
      scaled to 4.583333333333334 (the double [5160374573028694 * 2^-50]),
      above the floor, but the estimate
      [2 * 4.583333333333334 * 1.2] rounds to 11.000000000000002
      ([6192449487634433 * 2^-49]), above the budget of 11. *)
Lemma calculateFontSize_floor_overflows :
  calculateFontSize (letters (80 * 100)) (of_Z 600) (of_Z 100) = of_Z 4 /\
  estimated_height (letters (80 * 100))
    (calculateFontSize (letters (80 * 100)) (of_Z 600) (of_Z 100)) = of_Z 480 /\
  SFltb (of_Z 80) (estimated_height (letters (80 * 100))
    (calculateFontSize (letters (80 * 100)) (of_Z 600) (of_Z 100))) = true /\
  calculateFontSize (letters 81) (of_Z 217) (of_Z 31)
    = S754_finite false 5160374573028694 (-50) /\
  SFltb (of_Z 4) (calculateFontSize (letters 81) (of_Z 217) (of_Z 31)) = true /\
  estimated_height (letters 81) (calculateFontSize (letters 81) (of_Z 217) (of_Z 31))
    = S754_finite false 6192449487634433 (-49) /\
  SFltb (of_Z 11) (estimated_height (letters 81)
    (calculateFontSize (letters 81) (of_Z 217) (of_Z 31))) = true.
Proof. vm_compute. repeat split. Qed.

(** C10. For a chunk whose text is empty or white space only (as
    [String.prototype.trim] counts it, the no-break space included), the
    page added by [addSearchablePage] is the page and its image and
    nothing else: no text layer, whatever [wordPositions] holds. *)
Theorem blank_text_adds_only_image (embeds : string -> bool) (doc : list PdfOp)
  (chunk : ContentChunk) (dims : option (Z * Z)) :
  JsString.nonempty (JsString.trim (chunk_text chunk)) = false ->
  addSearchablePage embeds doc chunk dims =
    match dims with
    | Some (width, height) =>
        if (Z.eqb width 0 || Z.eqb height 0)%bool then None
        else if embeds (screenshot chunk)
        then Some (doc ++ [AddPage width height;
                           DrawImage (screenshot chunk) 0 0 width height])
        else None
    | None => None
    end.
Proof.
  intro Hblank. unfold addSearchablePage.
  destruct dims as [[width height]|]; [|reflexivity].
  destruct (Z.eqb width 0 || Z.eqb height 0)%bool; [reflexivity|].
  destruct (embeds (screenshot chunk)); [|reflexivity]. simpl negb. cbv iota.
  rewrite Hblank, andb_false_r. reflexivity.
Qed.

Lemma blank_text_adds_only_image_witness :
  JsString.nonempty (JsString.trim (chunk_text blank_chunk)) = false /\
  addSearchablePage (fun _ => true) [] blank_chunk (Some (600%Z, 800%Z)) =
    Some [AddPage 600 800; DrawImage "page_0001.png" 0 0 600 800].
Proof.
  split; [vm_compute; reflexivity|].
  rewrite (blank_text_adds_only_image (fun _ => true) [] blank_chunk (Some (600%Z, 800%Z)));
    [reflexivity | vm_compute; reflexivity].
Defined.

End SearchablePdfProofs.

Module RunStateProofs.
Import RunState Orchestrator.
Local Open Scope string_scope.
Local Open Scope list_scope.

(** C7 (amended). [completeRunState] and [failRunState] do not look at the
    status they are given: applied to any run state, the first yields
    [Completed] with [endTime] set, the second [Failed] with [endTime] and
    [stopReason] set, and both keep every other field. The orchestrator
    does not look at it either: [loadRunState] returns the saved state
    whatever its status, and a run that captures its pages and whose saves
    return completes that state, so a loaded [FAILED] (or [COMPLETED])
    state is written back as [COMPLETED]. *)
Theorem run_state_finalisers_overwrite_status (st : RunState) (reason now : string) :
  (status (completeRunState st now) = Completed /\
   endTime (completeRunState st now) = Some now /\
   bookTitle (completeRunState st now) = bookTitle st /\
   startTime (completeRunState st now) = startTime st /\
   lastPage (completeRunState st now) = lastPage st /\
   totalPages (completeRunState st now) = totalPages st /\
   exportedPages (completeRunState st now) = exportedPages st /\
   stopReason (completeRunState st now) = stopReason st /\
   ocrFailures (completeRunState st now) = ocrFailures st) /\
  (status (failRunState st reason now) = Failed /\
   endTime (failRunState st reason now) = Some now /\
   stopReason (failRunState st reason now) = Some reason /\
   bookTitle (failRunState st reason now) = bookTitle st /\
   startTime (failRunState st reason now) = startTime st /\
   lastPage (failRunState st reason now) = lastPage st /\
   totalPages (failRunState st reason now) = totalPages st /\
   exportedPages (failRunState st reason now) = exportedPages st /\
   ocrFailures (failRunState st reason now) = ocrFailures st) /\
  (forall opts metaTitle provider capture_ok save_ok r pages captured,
     captureAndOcrPages opts provider capture_ok (lastPage st) r = Captured pages captured ->
     let st' := completeRunState
                  (updateRunState_pages st (List.length pages) (List.length pages)) now in
     save_ok st' = true ->
     status st' = Completed /\
     orchestrateBookExport opts metaTitle now (Some st) provider capture_ok true save_ok r =
       (Returned {| success := true; totalPages_res := List.length pages; error := None |},
        [st'])).
Proof.
  split; [repeat split|]. split; [repeat split|].
  intros opts metaTitle provider capture_ok save_ok r pages captured Hc st' Hs.
  split; [reflexivity|].
  unfold orchestrateBookExport. cbv zeta. cbn [initial_run_state]. rewrite Hc.
  cbn [negb]. fold st'. rewrite Hs. reflexivity.
Qed.

Lemma run_state_finalisers_overwrite_status_witness :
  captureAndOcrPages plain_options (Some (fun _ => Some "text"%string)) (fun _ => true)
    (lastPage failed_state) {| current := 1; book_pages := 2 |} =
    Captured [(1, "text"%string); (2, "text"%string)] [1; 2] /\
  status (completeRunState (updateRunState_pages failed_state 2 2) "t2") = Completed /\
  orchestrateBookExport plain_options "Book" "t2" (Some failed_state)
    (Some (fun _ => Some "text"%string)) (fun _ => true) true (fun _ => true)
    {| current := 1; book_pages := 2 |} =
    (Returned {| success := true; totalPages_res := 2; error := None |},
     [completeRunState (updateRunState_pages failed_state 2 2) "t2"]).
Proof.
  assert (H : captureAndOcrPages plain_options (Some (fun _ => Some "text"%string))
                (fun _ => true) (lastPage failed_state) {| current := 1; book_pages := 2 |} =
              Captured [(1, "text"%string); (2, "text"%string)] [1; 2])
    by (vm_compute; reflexivity).
  split; [exact H|].
  destruct (run_state_finalisers_overwrite_status failed_state "OCR failed" "t2")
    as (_ & _ & Ho).
  exact (Ho plain_options "Book" _ _ (fun _ => true) _ _ _ H eq_refl).
Defined.

(** C7 (counterexample). A failed run state passed to [completeRunState]
    becomes [Completed], and a completed one passed to [failRunState]
    becomes [Failed]. In a run: a [FAILED] state saved for the book is
    loaded, the run captures the book's two pages, and the state written
    at the end is that state marked [COMPLETED]. *)
Lemma terminal_status_overwritten :
  let completed := completeRunState (createRunState "Book" "t0") "t1" in
  status failed_state = Failed /\ status (completeRunState failed_state "t2") = Completed /\
  status completed = Completed /\ status (failRunState completed "boom" "t2") = Failed /\
  orchestrateBookExport plain_options "Book" "t2" (Some failed_state)
    (Some (fun _ => Some "text"%string)) (fun _ => true) true (fun _ => true)
    {| current := 1; book_pages := 2 |} =
    (Returned {| success := true; totalPages_res := 2; error := None |},
     [completeRunState (updateRunState_pages failed_state 2 2) "t2"]) /\
  status (completeRunState (updateRunState_pages failed_state 2 2) "t2") = Completed.
Proof. vm_compute. repeat split. Qed.

End RunStateProofs.

Module OrchestratorProofs.
Import RunState Orchestrator.
Local Open Scope string_scope.
Local Open Scope nat_scope.
Local Open Scope list_scope.

(** The capture loop ends in [OcrThrew] only outside a dry run, and then
    the last page it captured is one whose OCR call threw. *)
Lemma capture_loop_threw : forall fuel opts ocr cok r pn pages cap captured,
  capture_loop fuel opts ocr cok r pn pages cap = OcrThrew captured ->
  dryRun opts = false /\ exists pre q, captured = pre ++ [q] /\ ocr q = None.
Proof.
  induction fuel as [|fuel IH]; intros opts ocr cok r pn pages cap captured H;
    simpl in H; [discriminate|].
  destruct (negb (cok (current r))); [discriminate|].
  destruct (dryRun opts) eqn:Hdry.
  - destruct (_ || _)%bool; [discriminate|].
    destruct (navigateNextPage r) as [[] r']; [|discriminate].
    apply IH in H. destruct H as [Hf _]. congruence.
  - destruct (ocr _) as [t|] eqn:Hocr.
    + destruct (_ || _)%bool; [discriminate|].
      destruct (navigateNextPage r) as [[] r']; [|discriminate].
      apply IH in H. destruct H as [_ Hx]. split; [reflexivity|exact Hx].
    + injection H as <-. split; [reflexivity|].
      eexists; eexists; split; [reflexivity|exact Hocr].
Qed.

(** C5 (amended). When the OCR call for a captured page throws, the
    failure is not absorbed: [captureAndOcrPages] stops with that page as
    the last one captured (no later page is captured or recognised). This
    happens only outside a dry run; a dry run records empty text without
    calling OCR. [orchestrateBookExport] catches the error: when
    [options.bookTitle] is a non-empty string it saves a fresh [FAILED]
    run state with [lastPage] 0 for that title, and if that save returns
    (and when there is no such title) the export resolves as failed with
    no pages; if that save throws, the export rejects. *)
Theorem ocr_failure_ends_export (opts : Options) (metaTitle now : string)
  (existing : option RunState) (ocr : nat -> option string) (capture_ok : nat -> bool)
  (saveMetadata_ok : bool) (save_ok : RunState -> bool) (r : Reader)
  (captured : list nat) :
  captureAndOcrPages opts (Some ocr) capture_ok
    (lastPage (initial_run_state (bookTitle_of opts metaTitle) now existing)) r
    = OcrThrew captured ->
  dryRun opts = false /\
  (exists pre q, captured = pre ++ [q] /\ ocr q = None) /\
  orchestrateBookExport opts metaTitle now existing (Some ocr) capture_ok
    saveMetadata_ok save_ok r =
    (let failure := {| success := false; totalPages_res := 0;
                       error := Some "OCR failed"%string |} in
     match opt_bookTitle opts with
     | Some (String c s) =>
         let st := failRunState (createRunState (String c s) now) "OCR failed" now in
         if save_ok st then (Returned failure, [st]) else (Rejects, [])
     | _ => (Returned failure, [])
     end) /\
  (forall st, In st (snd (orchestrateBookExport opts metaTitle now existing (Some ocr)
                            capture_ok saveMetadata_ok save_ok r)) ->
     status st = Failed /\ lastPage st = 0 /\ stopReason st = Some "OCR failed"%string).
Proof.
  intro H.
  assert (H' := H). unfold captureAndOcrPages in H'.
  pose proof (capture_loop_threw _ _ _ _ _ _ _ _ _ H') as [Hdry Hlast].
  split; [exact Hdry|]. split; [exact Hlast|].
  unfold orchestrateBookExport. cbv zeta. rewrite H. unfold on_error.
  destruct (opt_bookTitle opts) as [[|c s]|].
  - split; [reflexivity|]. intros st [].
  - destruct (save_ok _).
    + split; [reflexivity|]. intros st [<-|[]]. repeat split.
    + split; [reflexivity|]. intros st [].
  - split; [reflexivity|]. intros st [].
Qed.

Lemma ocr_failure_ends_export_witness :
  captureAndOcrPages plain_options (Some fails_on_page_2) (fun _ => true)
    (lastPage (initial_run_state (bookTitle_of plain_options "Book") "t0" None))
    {| current := 1; book_pages := 4 |} = OcrThrew [1; 2] /\
  orchestrateBookExport plain_options "Book" "t0" None (Some fails_on_page_2)
    (fun _ => true) true (fun _ => true) {| current := 1; book_pages := 4 |} =
    (Returned {| success := false; totalPages_res := 0; error := Some "OCR failed"%string |},
     [failRunState (createRunState "Book" "t0") "OCR failed" "t0"]).
Proof.
  assert (H : captureAndOcrPages plain_options (Some fails_on_page_2) (fun _ => true)
                (lastPage (initial_run_state (bookTitle_of plain_options "Book") "t0" None))
                {| current := 1; book_pages := 4 |} = OcrThrew [1; 2])
    by (vm_compute; reflexivity).
  split; [exact H|].
  destruct (ocr_failure_ends_export plain_options "Book" "t0" None fails_on_page_2
              (fun _ => true) true (fun _ => true) {| current := 1; book_pages := 4 |}
              [1; 2] H) as (_ & _ & E & _).
  exact E.
Defined.

(** C5 (counterexample). A four-page book read from page 1 with an OCR
    backend that throws on page 2: the run captures pages 1 and 2 only,
    never reaches pages 3 and 4, and the export reports failure with no
    pages, and a [FAILED] run state, instead of recording empty text for
    page 2 and going on. *)
Lemma ocr_failure_aborts_run :
  captureAndOcrPages plain_options (Some fails_on_page_2) (fun _ => true) 0
    {| current := 1; book_pages := 4 |} = OcrThrew [1; 2] /\
  orchestrateBookExport plain_options "Book" "t0" None (Some fails_on_page_2)
    (fun _ => true) true (fun _ => true) {| current := 1; book_pages := 4 |} =
    (Returned {| success := false; totalPages_res := 0; error := Some "OCR failed"%string |},
     [failRunState (createRunState "Book" "t0") "OCR failed" "t0"]).
Proof. split; vm_compute; reflexivity. Qed.

(** C6 (failing input). A persisted [IN_PROGRESS] run with [lastPage = 7],
    a 20-page book that the reader opens at page 1 (the position the
    navigation of [captureAndOcrPages] assumes) and an OCR backend that
    always answers: the resumed export captures and recognises page 7 again
    first, then 8 to 20. *)
Lemma resume_recaptures_last_page :
  status resumable_state = InProgress /\ lastPage resumable_state = 7 /\
  captureAndOcrPages plain_options (Some (fun _ => Some "text"%string)) (fun _ => true)
    (lastPage (initial_run_state "Book" "t1" (Some resumable_state)))
    {| current := 1; book_pages := 20 |} =
  Captured (map (fun q => (q, "text"%string)) (seq 7 14)) (seq 7 14).
Proof. split; [reflexivity|]. split; [reflexivity|]. vm_compute. reflexivity. Qed.

End OrchestratorProofs.

Module BatchOcrProofs.
Import BatchOcr.
Local Open Scope nat_scope.
Local Open Scope string_scope.
Local Open Scope list_scope.



Lemma report_keeps opts total path st st' threw :
  report opts total path st = (st', threw) ->
  acc_results st' = acc_results st /\ acc_failures st' = acc_failures st /\
  ocr_log st' = ocr_log st.
Proof.
  unfold report. destruct (onProgress opts); intro H; injection H as <- _;
    repeat split.
Qed.

Section ContinueOnError.
Variable opts : BatchOcrOptions.
Variable provider : Provider.
Variable total : nat.
Hypothesis Hcont : continueOnError opts = true.
Hypothesis Hprog : forall f c n p, onProgress opts = Some f -> f c n p = true.




End ContinueOnError.




End BatchOcrProofs.

Module LocalVisionInvariants.
Import LocalVision.
Local Open Scope Z_scope.

(** Which of [recordSuccess] and [recordFailure] the retry loop ran. *)
Lemma retry_loop_outcome (env : CallEnv) : forall fuel a rc p r p' n,
  retry_loop env fuel a rc p = (r, p', n) ->
  (exists t, r = Ok t /\
     successfulRequests (stats p') = successfulRequests (stats p) + 1 /\
     failedRequests (stats p') = failedRequests (stats p)) \/
  (exists e, r = Err e /\
     successfulRequests (stats p') = successfulRequests (stats p) /\
     failedRequests (stats p') = failedRequests (stats p) + 1).
Proof.
  induction fuel as [|fuel IH]; intros a rc p r p' n H; simpl in H.
  - unfold after_loop in H; right;
      destruct (rc =? 0); injection H as <- <- _; eexists; simpl; repeat split.
  - destruct (Z.of_nat a <=? maxRetries (config p)).
    + destruct (attempt_result env a) as [content|].
      * injection H as <- <- _. left. eexists. split; [reflexivity|].
        destruct (0 <? rc); simpl; split; reflexivity.
      * destruct (Z.of_nat a =? maxRetries (config p)).
        -- injection H as <- <- _. right. eexists. simpl. repeat split.
        -- apply IH in H. simpl in H. exact H.
    + unfold after_loop in H; right;
        destruct (rc =? 0); injection H as <- <- _; eexists; simpl; repeat split.
Qed.

(** The counter relations every reachable provider satisfies. *)
Definition stats_ok (s : OcrStats) : Prop :=
  totalRequests s = successfulRequests s + failedRequests s /\
  0 <= retriedRequests s <= successfulRequests s /\
  retriedRequests s <= totalRetries s.

Lemma ocr_keeps_stats_ok env p r p' n :
  ocr env p = (r, p', n) -> stats_ok (stats p) -> stats_ok (stats p').
Proof.
  unfold ocr; intros H Hinv.
  destruct (negb (isInitialized p) && negb (ollama_ready env)).
  { injection H as _ <- _. exact Hinv. }
  destruct (negb (image_exists env)).
  { injection H as _ <- _. exact Hinv. }
  destruct (checkCircuitBreaker (clock_check env) (circuitBreaker (set_initialized p)))
    as [cb|e].
  2: { injection H as _ <- _. exact Hinv. }
  set (p1 := set_stats (incr_totalRequests (stats (set_initialized p)))
               (set_breaker cb (set_initialized p))) in H.
  pose proof (LocalVisionProofs.retry_loop_stats env _ 0 p1 r p' n H) as [Hreq Hrt].
  pose proof (retry_loop_outcome env _ 0 0 p1 r p' n H) as Hout.
  unfold stats_ok in *. subst p1; simpl in *.
  destruct Hinv as (Ht & Hr1 & Hr2).
  destruct Hrt as [(t & Hr & Hlt & Htr & Hrr) | (e & Hr & Hle & _ & Htr & Hrr)];
    destruct Hout as [(t' & Hr' & Hs & Hf) | (e' & Hr' & Hs & Hf)];
    subst r; try discriminate.
  - rewrite Hreq, Hs, Hf, Hrr, Htr.
    destruct (1 <? n)%nat eqn:E; [apply Nat.ltb_lt in E|]; lia.
  - rewrite Hreq, Hs, Hf, Hrr, Htr. lia.
Qed.

Lemma after_calls_keeps_stats_ok : forall es p,
  stats_ok (stats p) -> stats_ok (stats (after_calls es p)).
Proof.
  induction es as [|e es IH]; intros p Hp; simpl; [exact Hp|].
  apply IH. unfold after_call.
  destruct (ocr e p) as [[r p'] n] eqn:H.
  exact (ocr_keeps_stats_ok e p r p' n H Hp).
Qed.

(** Every call of the retry loop from the constructor's configuration makes
    at least one backend attempt. *)
Lemma retry_loop_attempts (env : CallEnv) fuel p r p' n :
  0 <= maxRetries (config p) ->
  retry_loop env (S fuel) 0 0 p = (r, p', n) -> (1 <= n)%nat.
Proof.
  intros Hm H. cbn [retry_loop] in H.
  replace (Z.of_nat 0 <=? maxRetries (config p)) with true in H
    by (symmetry; apply Z.leb_le; simpl; lia).
  destruct (attempt_result env 0) as [content|].
  - injection H as _ _ <-. lia.
  - destruct (Z.of_nat 0 =? maxRetries (config p)).
    + injection H as _ _ <-. lia.
    + replace (0 + 1) with (Z.of_nat 1) in H by reflexivity.
      apply LocalVisionProofs.retry_loop_stats in H.
      destruct H as [_ [(t & _ & Hlt & _) | (e & _ & Hle & _)]]; simpl in *; lia.
Qed.

(** The breaker relation of a provider built by the constructor. *)
Definition breaker_ok (p : Provider) : Prop :=
  config p = constructor_config /\
  (state (circuitBreaker p) = OPEN <-> failureCount (circuitBreaker p) = 5) /\
  0 <= failureCount (circuitBreaker p) <= 5.

Lemma ocr_keeps_breaker_ok env p r p' n :
  ocr env p = (r, p', n) -> breaker_ok p -> breaker_ok p'.
Proof.
  unfold ocr; intros H Hinv.
  destruct (negb (isInitialized p) && negb (ollama_ready env)).
  { injection H as _ <- _. exact Hinv. }
  destruct (negb (image_exists env)).
  { injection H as _ <- _. exact Hinv. }
  destruct (checkCircuitBreaker (clock_check env) (circuitBreaker (set_initialized p)))
    as [cb|e] eqn:Hc.
  2: { injection H as _ <- _. exact Hinv. }
  destruct Hinv as (Hcfg & Hiff & Hfc).
  (* the breaker handed to the retry loop is not OPEN and has fc < 5 *)
  assert (Hcb : state cb <> OPEN /\ 0 <= failureCount cb <= 4).
  { unfold checkCircuitBreaker in Hc; simpl in Hc.
    destruct (state (circuitBreaker p)) eqn:Es.
    - injection Hc as <-. rewrite Es.
      split; [discriminate|]. destruct Hiff as [_ Hb].
      destruct (Z.eq_dec (failureCount (circuitBreaker p)) 5) as [E|E];
        [specialize (Hb E); discriminate|lia].
    - destruct (nextAttemptTime (circuitBreaker p) <=? clock_check env);
        [|discriminate]. injection Hc as <-. simpl. split; [discriminate|lia].
    - injection Hc as <-. rewrite Es.
      split; [discriminate|]. destruct Hiff as [_ Hb].
      destruct (Z.eq_dec (failureCount (circuitBreaker p)) 5) as [E|E];
        [specialize (Hb E); discriminate|lia]. }
  set (p1 := set_stats (incr_totalRequests (stats (set_initialized p)))
               (set_breaker cb (set_initialized p))) in H.
  assert (Hcfg1 : config p1 = constructor_config) by (subst p1; exact Hcfg).
  assert (Hn : (1 <= n)%nat).
  { refine (retry_loop_attempts env _ p1 r p' n _ H). rewrite Hcfg1. simpl. lia. }
  pose proof (LocalVisionProofs.retry_loop_stats env _ 0 p1 r p' n H) as [_ Hrt].
  apply LocalVisionProofs.retry_loop_breaker in H as (Hc' & _ & Hfail & Hok).
  unfold breaker_ok. rewrite Hc', Hcfg1. split; [reflexivity|].
  destruct Hrt as [(t & Hr & _) | (e & Hr & _ & He & _)]; subst r.
  - rewrite (Hok t eq_refl). subst p1. simpl. unfold breaker_success.
    destruct Hcb as [Hns _].
    destruct (state cb) eqn:Es; [| contradiction |]; simpl;
      (split; [split; intro X; [discriminate X | lia] | lia]).
  - destruct He as [-> | [_ ->]]; [|lia].
    rewrite (Hfail eq_refl). rewrite Hcfg1. subst p1. simpl.
    unfold breaker_failure; simpl.
    destruct (5 <=? failureCount cb + 1) eqn:E.
    + apply Z.leb_le in E. simpl. split; [split; intros _; [lia|reflexivity]|lia].
    + apply Z.leb_gt in E. simpl. split; [|lia].
      split; intro X; [exfalso; exact (proj1 Hcb X) | lia].
Qed.

Lemma after_calls_keeps_breaker_ok : forall es p,
  breaker_ok p -> breaker_ok (after_calls es p).
Proof.
  induction es as [|e es IH]; intros p Hp; simpl; [exact Hp|].
  apply IH. unfold after_call.
  destruct (ocr e p) as [[r p'] n] eqn:H.
  exact (ocr_keeps_breaker_ok e p r p' n H Hp).
Qed.

(** Extra. Whatever the backend, the image files and the clock do, after
    any sequence of [ocr] calls on a new [LocalVisionProvider]:
    [totalRequests = successfulRequests + failedRequests], and
    [retriedRequests] is at most both [successfulRequests] and
    [totalRetries]. *)
Theorem ocr_stats_consistent (es : list CallEnv) :
  let s := stats (after_calls es new_provider) in
  totalRequests s = successfulRequests s + failedRequests s /\
  0 <= retriedRequests s <= successfulRequests s /\
  retriedRequests s <= totalRetries s.
Proof.
  apply after_calls_keeps_stats_ok. unfold stats_ok; simpl; lia.
Qed.

(** Extra. After any sequence of [ocr] calls on a new
    [LocalVisionProvider], the failure count stays between 0 and the
    threshold 5, and the breaker is [OPEN] exactly when the count is 5:
    it never opens early and a [CLOSED] or [HALF_OPEN] breaker never holds
    five failures. *)
Theorem breaker_open_iff_threshold (es : list CallEnv) :
  let cb := circuitBreaker (after_calls es new_provider) in
  (state cb = OPEN <-> failureCount cb = 5) /\ 0 <= failureCount cb <= 5.
Proof.
  pose proof (after_calls_keeps_breaker_ok es new_provider) as H.
  destruct H as (_ & H1 & H2).
  - unfold breaker_ok; simpl. split; [reflexivity|]. split; [|lia].
    split; intro X; discriminate X || lia.
  - split; assumption.
Qed.

(** Extra. An [ocr] call that returns a text has run exactly one
    [recordSuccess]: afterwards the breaker is [CLOSED] with no recorded
    failures, [totalRequests] and [successfulRequests] have gone up by one
    and [failedRequests] is unchanged. *)
Theorem ocr_success_closes_breaker (env : CallEnv) (p p' : Provider)
  (t : string) (n : nat) :
  ocr env p = (Ok t, p', n) ->
  state (circuitBreaker p') = CLOSED /\ failureCount (circuitBreaker p') = 0 /\
  totalRequests (stats p') = totalRequests (stats p) + 1 /\
  successfulRequests (stats p') = successfulRequests (stats p) + 1 /\
  failedRequests (stats p') = failedRequests (stats p).
Proof.
  unfold ocr; intro H.
  destruct (negb (isInitialized p) && negb (ollama_ready env)); [discriminate|].
  destruct (negb (image_exists env)); [discriminate|].
  destruct (checkCircuitBreaker (clock_check env) (circuitBreaker (set_initialized p)))
    as [cb|e] eqn:Hc; [|discriminate].
  assert (Hst : state cb <> OPEN).
  { unfold checkCircuitBreaker in Hc; simpl in Hc.
    destruct (state (circuitBreaker p)) eqn:Es.
    - injection Hc as <-. rewrite Es. discriminate.
    - destruct (_ <=? _); [|discriminate]. injection Hc as <-. discriminate.
    - injection Hc as <-. rewrite Es. discriminate. }
  set (p1 := set_stats (incr_totalRequests (stats (set_initialized p)))
               (set_breaker cb (set_initialized p))) in H.
  pose proof (LocalVisionProofs.retry_loop_stats env _ 0 p1 _ p' n H) as [Hreq Hrt].
  pose proof (retry_loop_outcome env _ 0 0 p1 _ p' n H) as Hout.
  apply LocalVisionProofs.retry_loop_breaker in H as (_ & _ & _ & Hok).
  rewrite (Hok t eq_refl). subst p1. simpl in *. unfold breaker_success; simpl.
  destruct Hout as [(t' & _ & Hs & Hf) | (e & Habs & _)]; [|discriminate].
  split; [destruct (state cb); simpl; congruence|].
  split; [reflexivity|]. split; [lia|]. split; [lia|lia].
Qed.

Lemma ocr_success_closes_breaker_witness :
  ocr (flaky_env 2 "hi" 0) new_provider =
    (Ok "hi", after_call (flaky_env 2 "hi" 0) new_provider, 3%nat) /\
  (state (circuitBreaker (after_call (flaky_env 2 "hi" 0) new_provider)) = CLOSED /\
   failureCount (circuitBreaker (after_call (flaky_env 2 "hi" 0) new_provider)) = 0 /\
   totalRequests (stats (after_call (flaky_env 2 "hi" 0) new_provider)) =
     totalRequests (stats new_provider) + 1 /\
   successfulRequests (stats (after_call (flaky_env 2 "hi" 0) new_provider)) =
     successfulRequests (stats new_provider) + 1 /\
   failedRequests (stats (after_call (flaky_env 2 "hi" 0) new_provider)) =
     failedRequests (stats new_provider)).
Proof.
  assert (H : ocr (flaky_env 2 "hi" 0) new_provider =
    (Ok "hi", after_call (flaky_env 2 "hi" 0) new_provider, 3%nat))
    by (vm_compute; reflexivity).
  split; [exact H|].
  exact (ocr_success_closes_breaker _ _ _ _ _ H).
Defined.

(** Extra. A call refused by the open breaker happens only while the
    breaker is [OPEN] and its next attempt time has not come. It makes no
    backend attempt and changes neither the breaker nor the counters. Its
    message [Retry in Ns] gives the wait rounded up to whole seconds:
    [N >= 1] and [(N - 1) * 1000 < nextAttemptTime - now <= N * 1000]. *)
Theorem circuit_open_rejection (env : CallEnv) (p p' : Provider) (s : Z) (n : nat) :
  ocr env p = (Err (CircuitOpen s), p', n) ->
  n = 0%nat /\ state (circuitBreaker p) = OPEN /\
  clock_check env < nextAttemptTime (circuitBreaker p) /\
  circuitBreaker p' = circuitBreaker p /\ stats p' = stats p /\
  1 <= s /\
  (s - 1) * 1000 < nextAttemptTime (circuitBreaker p) - clock_check env <= s * 1000.
Proof.
  unfold ocr; intro H.
  destruct (negb (isInitialized p) && negb (ollama_ready env)); [discriminate|].
  destruct (negb (image_exists env)); [discriminate|].
  destruct (checkCircuitBreaker (clock_check env) (circuitBreaker (set_initialized p)))
    as [cb|e] eqn:Hc.
  - set (p1 := set_stats (incr_totalRequests (stats (set_initialized p)))
                 (set_breaker cb (set_initialized p))) in H.
    pose proof (LocalVisionProofs.retry_loop_stats env _ 0 p1 _ p' n H) as [_ Hrt].
    destruct Hrt as [(t & Hr & _) | (e & Hr & _ & He & _)]; [discriminate|].
    injection Hr as <-. destruct He as [He|[He _]]; discriminate He.
  - injection H as He <- <-. subst e.
    unfold checkCircuitBreaker in Hc; simpl in Hc.
    destruct (state (circuitBreaker p)); try discriminate.
    destruct (nextAttemptTime (circuitBreaker p) <=? clock_check env) eqn:Et;
      [discriminate|].
    apply Z.leb_gt in Et. injection Hc as Hs.
    unfold ceil_div in Hs.
    set (a := nextAttemptTime (circuitBreaker p) - clock_check env) in *.
    pose proof (Z.div_mod (- a) 1000 ltac:(lia)) as Hdm.
    pose proof (Z.mod_pos_bound (- a) 1000 ltac:(lia)) as Hb.
    split; [reflexivity|]. split; [reflexivity|]. split; [exact Et|].
    split; [reflexivity|]. split; [reflexivity|].
    rewrite <- Hs. lia.
Qed.

Lemma circuit_open_rejection_witness :
  ocr (failing_env 0) (fails 5) = (Err (CircuitOpen 60), fails 5, 0%nat) /\
  (0%nat = 0%nat /\ state (circuitBreaker (fails 5)) = OPEN /\
   clock_check (failing_env 0) < nextAttemptTime (circuitBreaker (fails 5)) /\
   circuitBreaker (fails 5) = circuitBreaker (fails 5) /\
   stats (fails 5) = stats (fails 5) /\ 1 <= 60 /\
   (60 - 1) * 1000 < nextAttemptTime (circuitBreaker (fails 5)) - clock_check (failing_env 0)
     <= 60 * 1000).
Proof.
  assert (H : ocr (failing_env 0) (fails 5) = (Err (CircuitOpen 60), fails 5, 0%nat))
    by (vm_compute; reflexivity).
  split; [exact H|].
  exact (circuit_open_rejection _ _ _ _ _ H).
Defined.

End LocalVisionInvariants.

Module SearchablePdfDocument.
Import JsNumber JsNumberFacts SearchablePdf.
Local Open Scope Z_scope.

Lemma page_count_app a b : page_count (a ++ b) = (page_count a + page_count b)%nat.
Proof. unfold page_count. rewrite filter_app, length_app. reflexivity. Qed.

Lemma images_app a b : images (a ++ b) = images a ++ images b.
Proof. unfold images. apply flat_map_app. Qed.

Lemma font_sizes_app a b : font_sizes (a ++ b) = font_sizes a ++ font_sizes b.
Proof. unfold font_sizes. apply flat_map_app. Qed.

Lemma state_depth_app : forall a b d,
  state_depth d (a ++ b) =
  match state_depth d a with Some d' => state_depth d' b | None => None end.
Proof.
  induction a as [|o a IH]; intros b d; [reflexivity|].
  destruct o; simpl; try apply IH. destruct d; [reflexivity|apply IH].
Qed.

(** A font size between 4 and 72 pt. *)
Definition font_ok (f : number) : Prop :=
  SFleb (of_Z 4) f = true /\ SFleb f (of_Z 72) = true.

(** Word boxes whose vertical coordinates are finite numbers. *)
Definition words_finite (ws : list Hocr.WordPosition) : Prop :=
  forall wp, In wp ws ->
    is_finite (Hocr.y0 (Hocr.bbox wp)) = true /\ is_finite (Hocr.y1 (Hocr.bbox wp)) = true.

Lemma leb_6_4 f : SFleb (of_Z 6) f = true -> SFleb (of_Z 4) f = true.
Proof.
  replace (of_Z 6) with (S754_finite false 6755399441055744 (-50)) by (vm_compute; reflexivity).
  replace (of_Z 4) with (S754_finite false 4503599627370496 (-50)) by (vm_compute; reflexivity).
  destruct f as [s|s| |s m e]; try destruct s; unfold SFleb, SFcompare; try (intro; reflexivity);
    try (intro H; discriminate H).
  destruct (Z.compare_spec (-50) e) as [<-|Hlt|Hgt]; [|intro; reflexivity|intro H; discriminate H].
  change (Pos.compare_cont Eq 6755399441055744 m) with (Pos.compare 6755399441055744 m).
  change (Pos.compare_cont Eq 4503599627370496 m) with (Pos.compare 4503599627370496 m).
  destruct (Pos.compare_spec 6755399441055744 m) as [<-|Hlt|Hgt]; intro H; try discriminate H;
    [reflexivity|].
  replace (Pos.compare 4503599627370496 m) with Lt; [reflexivity|].
  symmetry. apply Pos.compare_lt_iff. lia.
Qed.

Lemma leb_14_72 f : SFleb f (of_Z 14) = true -> SFleb f (of_Z 72) = true.
Proof.
  replace (of_Z 14) with (S754_finite false 7881299347898368 (-49)) by (vm_compute; reflexivity).
  replace (of_Z 72) with (S754_finite false 5066549580791808 (-46)) by (vm_compute; reflexivity).
  destruct f as [s|s| |s m e]; try destruct s; unfold SFleb, SFcompare; try (intro; reflexivity);
    try (intro H; discriminate H).
  destruct (Z.compare_spec e (-49)) as [->|Hlt|Hgt]; intro H; try discriminate H;
    [reflexivity|].
  replace (e ?= -46) with Lt by (symmetry; apply Z.compare_lt_iff; lia). reflexivity.
Qed.

Lemma calculateFontSize_ok text w h : 0 <= w < 2 ^ 53 -> 20 <= h < 2 ^ 53 ->
  font_ok (calculateFontSize text (of_Z w) (of_Z h)).
Proof.
  intros Hw Hh. destruct (SearchablePdfProofs.calculateFontSize_clamped text w h Hw Hh)
    as [H4 H14].
  split; [exact H4|apply leb_14_72; exact H14].
Qed.

Lemma positioned_word_font wp : is_finite (Hocr.y0 (Hocr.bbox wp)) = true ->
  is_finite (Hocr.y1 (Hocr.bbox wp)) = true ->
  font_ok (js_max (of_Z 6) (js_min (of_Z 72)
    (mul (sub (Hocr.y1 (Hocr.bbox wp)) (Hocr.y0 (Hocr.bbox wp))) (lit 85 100)))).
Proof.
  intros H0 H1.
  replace (lit 85 100) with (S754_finite false 7656119366529843 (-53))
    by (vm_compute; reflexivity).
  destruct (clamp_range (of_Z 6) (of_Z 72)
              (mul (sub (Hocr.y1 (Hocr.bbox wp)) (Hocr.y0 (Hocr.bbox wp)))
                   (S754_finite false 7656119366529843 (-53))))
    as [H6 H72]; try reflexivity; try discriminate.
  - apply mul_const_not_nan, sub_finite_not_nan; assumption.
  - split; [apply leb_6_4; exact H6|exact H72].
Qed.

Lemma positioned_words_ops : forall ws d,
  page_count (flat_map positioned_word ws) = 0%nat /\
  images (flat_map positioned_word ws) = [] /\
  state_depth d (flat_map positioned_word ws) = Some d /\
  (words_finite ws -> forall f, In f (font_sizes (flat_map positioned_word ws)) -> font_ok f).
Proof.
  induction ws as [|w ws IH]; intro d.
  - split; [reflexivity|]. split; [reflexivity|]. split; [reflexivity|].
    intros _ f [].
  - destruct (IH d) as (H1 & H2 & H3 & H4).
    change (flat_map positioned_word (w :: ws))
      with (positioned_word w ++ flat_map positioned_word ws).
    rewrite page_count_app, images_app, state_depth_app, font_sizes_app.
    rewrite H1, H2. simpl. rewrite H3.
    split; [reflexivity|]. split; [reflexivity|]. split; [reflexivity|].
    intros Hfin f [<-|Hf].
    + destruct (Hfin w (or_introl eq_refl)) as [Hy0 Hy1].
      apply positioned_word_font; assumption.
    + apply H4; [|exact Hf]. intros wp Hwp. apply Hfin. right. exact Hwp.
Qed.

(** The hypotheses under which every font size is in range: the page is
    at most [2^53 - 1] wide and at least [2 * margin] and at most
    [2^53 - 1] high, and its word boxes have finite vertical coordinates. *)
Definition fonts_defined (w h : Z) (chunk : ContentChunk) : Prop :=
  (0 <= w < 2 ^ 53 /\ 20 <= h < 2 ^ 53) /\
  (forall ws, wordPositions chunk = Some ws -> words_finite ws).

(** What [addSearchablePage] appends: the page, its image, and a text
    layer that adds no page, no image, leaves the graphics-state stack as
    it found it and sets only font sizes in [[4, 72]]. *)
Lemma addSearchablePage_ops embeds doc chunk dims doc' :
  addSearchablePage embeds doc chunk dims = Some doc' ->
  exists w h layer,
    dims = Some (w, h) /\ negb (Z.eqb w 0 || Z.eqb h 0) = true /\
    embeds (screenshot chunk) = true /\
    doc' = doc ++ AddPage w h :: DrawImage (screenshot chunk) 0 0 w h :: layer /\
    page_count layer = 0%nat /\ images layer = [] /\
    (forall d, state_depth d layer = Some d) /\
    (fonts_defined w h chunk -> forall f, In f (font_sizes layer) -> font_ok f).
Proof.
  unfold addSearchablePage. destruct dims as [[w h]|]; [|discriminate].
  destruct (Z.eqb w 0 || Z.eqb h 0)%bool eqn:Ez; [discriminate|].
  destruct (embeds (screenshot chunk)) eqn:Ee; [|discriminate]. simpl negb. cbv iota.
  intro H. exists w, h.
  destruct (JsString.nonempty (chunk_text chunk) &&
            JsString.nonempty (JsString.trim (chunk_text chunk)))%bool.
  - destruct (wordPositions chunk) as [[|w0 ws]|] eqn:Ew.
    + injection H as <-. eexists. split; [reflexivity|]. split; [rewrite Ez; reflexivity|].
      split; [reflexivity|]. split; [rewrite <- app_assoc; reflexivity|].
      split; [reflexivity|]. split; [reflexivity|]. split; [intro d; reflexivity|].
      intros [[Hw Hh] _] g [<-|[]]. apply calculateFontSize_ok; assumption.
    + injection H as <-. eexists. split; [reflexivity|]. split; [rewrite Ez; reflexivity|].
      split; [reflexivity|]. split; [rewrite <- app_assoc; reflexivity|].
      unfold addPositionedTextLayer.
      destruct (positioned_words_ops (w0 :: ws) 0) as (H1 & H2 & _ & H4).
      rewrite !page_count_app, !images_app, !font_sizes_app, H1, H2.
      split; [reflexivity|]. split; [reflexivity|]. split.
      * intro d. rewrite !state_depth_app. cbn [state_depth].
        destruct (positioned_words_ops (w0 :: ws) (S d)) as (_ & _ & H3 & _).
        rewrite state_depth_app, H3. reflexivity.
      * intros [_ Hfin] f Hf.
        apply in_app_or in Hf as [Hf|Hf]; [simpl in Hf; contradiction|].
        apply in_app_or in Hf as [Hf|Hf]; [|simpl in Hf; contradiction].
        exact (H4 (Hfin _ Ew) f Hf).
    + injection H as <-. eexists. split; [reflexivity|]. split; [rewrite Ez; reflexivity|].
      split; [reflexivity|]. split; [rewrite <- app_assoc; reflexivity|].
      split; [reflexivity|]. split; [reflexivity|]. split; [intro d; reflexivity|].
      intros [[Hw Hh] _] g [<-|[]]. apply calculateFontSize_ok; assumption.
  - injection H as <-. exists []. split; [reflexivity|]. split; [rewrite Ez; reflexivity|].
    split; [reflexivity|]. split; [reflexivity|]. split; [reflexivity|].
    split; [reflexivity|]. split; [intro d; reflexivity|]. intros _ g [].
Qed.

Lemma addSearchablePage_none embeds doc chunk dims :
  addSearchablePage embeds doc chunk dims = None <->
  match dims with
  | Some (w, h) => (negb (Z.eqb w 0 || Z.eqb h 0) && embeds (screenshot chunk))%bool = false
  | None => True
  end.
Proof.
  unfold addSearchablePage. destruct dims as [[w h]|]; [|tauto].
  destruct (Z.eqb w 0 || Z.eqb h 0)%bool; simpl; [tauto|].
  destruct (embeds (screenshot chunk)); simpl; [|tauto].
  destruct (_ && _)%bool; [destruct (wordPositions chunk) as [[|]|]|];
    split; discriminate.
Qed.

Lemma add_pages_ops (sizeOf : string -> option (Z * Z)) (embeds : string -> bool) :
  forall content doc,
  match add_pages sizeOf embeds doc content with
  | Some doc' =>
      exists ops, doc' = doc ++ ops /\
        forallb (page_ok sizeOf embeds) content = true /\
        page_count ops = List.length content /\
        images ops = map screenshot content /\
        (forall d, state_depth d ops = Some d) /\
        ((forall path w h, sizeOf path = Some (w, h) -> 0 <= w < 2 ^ 53 /\ 20 <= h < 2 ^ 53) ->
         (forall c ws, In c content -> wordPositions c = Some ws -> words_finite ws) ->
         forall f, In f (font_sizes ops) -> font_ok f)
  | None => forallb (page_ok sizeOf embeds) content = false
  end.
Proof.
  induction content as [|c cs IH]; intro doc; simpl.
  - exists []. rewrite app_nil_r.
    split; [reflexivity|]. split; [reflexivity|]. split; [reflexivity|].
    split; [reflexivity|]. split; [intro d; reflexivity|]. intros _ _ g [].
  - destruct (addSearchablePage embeds doc c (sizeOf (screenshot c))) as [doc1|] eqn:Hp.
    + apply addSearchablePage_ops in Hp
        as (w & h & layer & Hd & Hok & He & -> & H1 & H2 & H3 & H4).
      assert (Hc : page_ok sizeOf embeds c = true)
        by (unfold page_ok; rewrite Hd, Hok, He; reflexivity).
      rewrite Hc. simpl andb.
      specialize (IH (doc ++ AddPage w h :: DrawImage (screenshot c) 0 0 w h :: layer)).
      destruct (add_pages sizeOf embeds _ cs) as [doc'|]; [|exact IH].
      destruct IH as (ops & -> & Hall & C & I & Dp & F).
      exists (AddPage w h :: DrawImage (screenshot c) 0 0 w h :: layer ++ ops).
      split; [rewrite <- app_assoc; reflexivity|]. split; [exact Hall|].
      split; [|split; [|split]].
      * change (AddPage w h :: DrawImage (screenshot c) 0 0 w h :: layer ++ ops)
          with ([AddPage w h; DrawImage (screenshot c) 0 0 w h] ++ layer ++ ops).
        rewrite !page_count_app, H1, C. reflexivity.
      * change (AddPage w h :: DrawImage (screenshot c) 0 0 w h :: layer ++ ops)
          with ([AddPage w h; DrawImage (screenshot c) 0 0 w h] ++ layer ++ ops).
        rewrite !images_app, H2, I. reflexivity.
      * intro d. simpl. rewrite state_depth_app, H3. apply Dp.
      * intros Hs Hws f Hf. simpl in Hf. rewrite font_sizes_app in Hf.
        apply in_app_or in Hf as [Hf|Hf].
        -- apply H4; [|exact Hf]. split; [exact (Hs _ _ _ Hd)|].
           intros ws Hw. exact (Hws c ws (or_introl eq_refl) Hw).
        -- apply F; [exact Hs| |exact Hf].
           intros c' ws Hc' Hw. exact (Hws c' ws (or_intror Hc') Hw).
    + apply addSearchablePage_none in Hp. unfold page_ok at 1.
      destruct (sizeOf (screenshot c)) as [[w h]|]; [rewrite Hp|]; reflexivity.
Qed.


(** Extra. Every font size [createPdf] sets lies between 4 and 72 pt
    (at most 14 pt for a plain text layer, at least 6 pt for a positioned
    word) when every screenshot is at most [2^53 - 1] wide and at least 20
    and at most [2^53 - 1] high, and every word box has finite vertical
    coordinates. The arithmetic is binary64. Without these hypotheses the
    size can be NaN: a 20-wide image less than 20 high gives
    [0 * (negative / 0)], and a word box whose [y0] and [y1] are both
    Infinity gives [Infinity - Infinity]. *)
Theorem createPdf_font_sizes (sizeOf : string -> option (Z * Z)) (embeds : string -> bool)
  (stream_ok : bool) (content : list ContentChunk) (doc : list PdfOp) :
  (forall path w h, sizeOf path = Some (w, h) -> 0 <= w < 2 ^ 53 /\ 20 <= h < 2 ^ 53) ->
  (forall c ws wp, In c content -> wordPositions c = Some ws -> In wp ws ->
     is_finite (Hocr.y0 (Hocr.bbox wp)) = true /\ is_finite (Hocr.y1 (Hocr.bbox wp)) = true) ->
  createPdf sizeOf embeds stream_ok content = Some doc ->
  forall f, In f (font_sizes doc) -> SFleb (of_Z 4) f = true /\ SFleb f (of_Z 72) = true.
Proof.
  intros Hs Hws Hdoc. unfold createPdf in Hdoc.
  pose proof (add_pages_ops sizeOf embeds content []) as H.
  destruct (add_pages sizeOf embeds [] content) as [doc0|]; [|discriminate].
  destruct stream_ok; [|discriminate]. injection Hdoc as <-.
  destruct H as (ops & -> & _ & _ & _ & _ & F).
  apply F; [exact Hs|]. intros c ws Hc Hw wp Hwp. exact (Hws c ws wp Hc Hw Hwp).
Qed.

Lemma createPdf_font_sizes_witness :
  (forall path w h, page_sizes path = Some (w, h) -> 0 <= w < 2 ^ 53 /\ 20 <= h < 2 ^ 53) /\
  (forall c ws wp, In c three_chunks -> wordPositions c = Some ws -> In wp ws ->
     is_finite (Hocr.y0 (Hocr.bbox wp)) = true /\ is_finite (Hocr.y1 (Hocr.bbox wp)) = true) /\
  exists doc, createPdf page_sizes (fun _ => true) true three_chunks = Some doc /\
    forall f, In f (font_sizes doc) -> SFleb (of_Z 4) f = true /\ SFleb f (of_Z 72) = true.
Proof.
  assert (Hs : forall path w h, page_sizes path = Some (w, h) ->
                 0 <= w < 2 ^ 53 /\ 20 <= h < 2 ^ 53).
  { intros path w h E. unfold page_sizes in E. injection E as <- <-. lia. }
  assert (Hws : forall c ws wp, In c three_chunks -> wordPositions c = Some ws -> In wp ws ->
     is_finite (Hocr.y0 (Hocr.bbox wp)) = true /\ is_finite (Hocr.y1 (Hocr.bbox wp)) = true).
  { intros c ws wp Hc Hw Hwp.
    destruct Hc as [<-|[<-|[<-|[]]]]; simpl in Hw; try discriminate;
      injection Hw as <-; destruct Hwp as [<-|[]]; split; reflexivity. }
  split; [exact Hs|]. split; [exact Hws|].
  destruct (createPdf page_sizes (fun _ => true) true three_chunks) as [doc|] eqn:E.
  - exists doc. split; [reflexivity|].
    exact (createPdf_font_sizes page_sizes (fun _ => true) true three_chunks doc Hs Hws E).
  - vm_compute in E. discriminate E.
Defined.

End SearchablePdfDocument.

Module OrchestratorPages.
Import RunState Orchestrator.
Local Open Scope string_scope.
Local Open Scope nat_scope.
Local Open Scope list_scope.

(** What the [catch] block writes: at most one state, a [FAILED] one with
    [lastPage] 0; the export then rejects having written nothing, or
    resolves as failed. *)
Lemma on_error_written save_ok opts now msg :
  List.length (snd (on_error save_ok opts now msg)) <= 1 /\
  (forall st, In st (snd (on_error save_ok opts now msg)) ->
     status st = Failed /\ lastPage st = 0) /\
  ((fst (on_error save_ok opts now msg) = Rejects /\ snd (on_error save_ok opts now msg) = [])
   \/ fst (on_error save_ok opts now msg) =
        Returned {| success := false; totalPages_res := 0; error := Some msg |}).
Proof.
  unfold on_error. destruct (opt_bookTitle opts) as [[|c s]|].
  - split; [simpl; lia|]. split; [intros st []|right; reflexivity].
  - destruct (save_ok _); simpl.
    + split; [lia|]. split; [intros st [<-|[]]; split; reflexivity|right; reflexivity].
    + split; [lia|]. split; [intros st []|left; split; reflexivity].
  - split; [simpl; lia|]. split; [intros st []|right; reflexivity].
Qed.

(** Extra. [orchestrateBookExport] writes at most one run state, and never
    a resumable one: the state it writes is [COMPLETED] or [FAILED], so
    [canResume] on it is false. When it reports success it wrote a
    [COMPLETED] state whose [lastPage] is the [lastPage] the run started
    from. When it reports failure, the state it wrote, if any, is [FAILED]
    with [lastPage] 0; it writes none when [options.bookTitle] is unset or
    empty, and the run-state file of an earlier run stays as it was. When
    it rejects (the save of the [FAILED] state threw) it wrote none. *)
Theorem saved_state_not_resumable (opts : Options) (metaTitle now : string)
  (existing : option RunState) (provider : option (nat -> option string))
  (capture_ok : nat -> bool) (saveMetadata_ok : bool) (save_ok : RunState -> bool)
  (r : Reader) :
  let out := orchestrateBookExport opts metaTitle now existing provider capture_ok
               saveMetadata_ok save_ok r in
  List.length (snd out) <= 1 /\
  (forall st, In st (snd out) -> canResume (Some st) = false /\ status st <> InProgress) /\
  match fst out with
  | Returned res =>
      if success res then
        exists st, snd out = [st] /\ status st = Completed /\
          lastPage st = lastPage (initial_run_state (bookTitle_of opts metaTitle) now existing)
      else forall st, In st (snd out) -> status st = Failed /\ lastPage st = 0
  | Rejects => snd out = []
  end.
Proof.
  assert (Herr : forall msg,
    let out := on_error save_ok opts now msg in
    List.length (snd out) <= 1 /\
    (forall st, In st (snd out) -> canResume (Some st) = false /\ status st <> InProgress) /\
    match fst out with
    | Returned res =>
        if success res then
          exists st, snd out = [st] /\ status st = Completed /\
            lastPage st = lastPage (initial_run_state (bookTitle_of opts metaTitle) now existing)
        else forall st, In st (snd out) -> status st = Failed /\ lastPage st = 0
    | Rejects => snd out = []
    end).
  { intros msg out. destruct (on_error_written save_ok opts now msg) as (L & F & O).
    fold out in L, F, O. split; [exact L|]. split.
    - intros st Hst. destruct (F st Hst) as [Hs _].
      unfold canResume. rewrite Hs. split; [reflexivity|discriminate].
    - destruct O as [[E1 E2]|E]; [rewrite E1; exact E2|rewrite E; exact F]. }
  cbv zeta. unfold orchestrateBookExport. cbv zeta.
  destruct (captureAndOcrPages opts provider capture_ok _ r) as [pages cap|cap|cap|];
    try apply Herr.
  destruct saveMetadata_ok; [|apply Herr]. cbn [negb].
  destruct (save_ok _); [|apply Herr].
  split; [simpl; lia|]. split.
  - intros st [<-|[]]. split; [reflexivity|discriminate].
  - eexists. split; [reflexivity|]. split; reflexivity.
Qed.

(** The loop keeps the captured page numbers and the recorded pages in
    step, and stops at [maxPages]. *)
Lemma capture_loop_bounded : forall fuel opts ocr cok r pn pages captured,
  map fst pages = captured ->
  (maxPages opts = 0 \/ List.length pages < maxPages opts) ->
  match capture_loop fuel opts ocr cok r pn pages captured with
  | Captured pages' captured' =>
      map fst pages' = captured' /\
      (maxPages opts = 0 \/ List.length pages' <= maxPages opts)
  | OcrThrew captured' => maxPages opts = 0 \/ List.length captured' <= maxPages opts
  | StepThrew captured' => maxPages opts = 0 \/ List.length captured' <= maxPages opts
  | ProviderThrew => True
  end.
Proof.
  induction fuel as [|fuel IH]; intros opts ocr cok r pn pages captured Hm Hlen; simpl.
  - split; [exact Hm | lia].
  - destruct (negb (cok (current r))).
    { rewrite <- Hm, length_map. lia. }
    set (c := match current r with 0 => pn | S n => S n end).
    destruct (if dryRun opts then Some EmptyString else ocr c) as [t|].
    + assert (Hm' : map fst (pages ++ [(c, t)]) = captured ++ [c])
        by (rewrite map_app, Hm; reflexivity).
      destruct ((negb (maxPages opts =? 0) &&
                 (maxPages opts <=? List.length (pages ++ [(c, t)])))
                || isLastPage r)%bool eqn:Estop.
      * split; [exact Hm'|]. rewrite length_app. simpl. lia.
      * apply orb_false_iff in Estop as [Estop _].
        assert (Hnext : maxPages opts = 0 \/
                        List.length (pages ++ [(c, t)]) < maxPages opts).
        { apply andb_false_iff in Estop as [E|E].
          - left. apply negb_false_iff, Nat.eqb_eq in E. exact E.
          - right. apply Nat.leb_gt in E. exact E. }
        destruct (navigateNextPage r) as [[] r'].
        -- exact (IH opts ocr cok r' (S pn) _ _ Hm' Hnext).
        -- split; [exact Hm'|]. rewrite length_app. simpl. lia.
    + rewrite <- Hm, length_app, length_map. simpl. lia.
Qed.

(** Extra. [captureAndOcrPages] never captures more than [maxPages] pages
    when that option is set, whether it returns, an OCR call throws, or
    [waitForPageReady] or [capturePage] throws. The pages it returns are
    exactly the pages it captured, in order. *)
Theorem capture_respects_maxPages (opts : Options) (provider : option (nat -> option string))
  (capture_ok : nat -> bool) (startPage : nat) (r : Reader) :
  match captureAndOcrPages opts provider capture_ok startPage r with
  | Captured pages captured =>
      map fst pages = captured /\
      (maxPages opts = 0 \/ List.length pages <= maxPages opts)
  | OcrThrew captured => maxPages opts = 0 \/ List.length captured <= maxPages opts
  | StepThrew captured => maxPages opts = 0 \/ List.length captured <= maxPages opts
  | ProviderThrew => True
  end.
Proof.
  unfold captureAndOcrPages. destruct provider as [ocr|]; [|exact I].
  apply capture_loop_bounded; [reflexivity|].
  destruct (maxPages opts); [left; reflexivity|right; simpl; lia].
Qed.




End OrchestratorPages.

Module BatchOcrWorker.
Import BatchOcr.
Local Open Scope nat_scope.
Local Open Scope string_scope.
Local Open Scope list_scope.

Lemma try_ocr_attempts (k : nat) (retry : bool) (provider : Provider)
  (path : string) (log : list string) (le0 text lastError : option string)
  (log' : list string) :
  try_ocr k retry provider path log le0 = (text, lastError, log') ->
  exists n, log' = log ++ repeat path n /\ n <= k /\ (0 < k -> 0 < n) /\
    (forall i, i + 1 < n -> exists m,
       provider (List.length log + i) path = Thrown m /\
       retry = true /\ shouldRetry m = true) /\
    match text with
    | Some t => provider (List.length log + n - 1) path = Text t
    | None =>
        (n = 0 /\ lastError = le0) \/
        exists m, lastError = Some m /\
          provider (List.length log + n - 1) path = Thrown m /\
          (n = k \/ retry = false \/ shouldRetry m = false)
    end.
Proof.
  revert log le0 text lastError log'.
  induction k as [|k IH]; intros log le0 text lastError log' H; simpl in H.
  - injection H as <- <- <-. exists 0. rewrite app_nil_r.
    split; [reflexivity|]. split; [lia|]. split; [lia|].
    split; [intros i Hi; lia|]. left. split; reflexivity.
  - destruct (provider (List.length log) path) as [t|m] eqn:Ep.
    + injection H as <- <- <-. exists 1.
      split; [reflexivity|]. split; [lia|]. split; [lia|].
      split; [intros i Hi; lia|].
      replace (List.length log + 1 - 1) with (List.length log) by lia. exact Ep.
    + destruct (negb retry || negb (shouldRetry m))%bool eqn:Estop.
      * injection H as <- <- <-. exists 1.
        split; [reflexivity|]. split; [lia|]. split; [lia|].
        split; [intros i Hi; lia|].
        right. exists m. split; [reflexivity|].
        replace (List.length log + 1 - 1) with (List.length log) by lia.
        split; [exact Ep|]. right.
        apply orb_true_iff in Estop. destruct Estop as [E|E];
          apply negb_true_iff in E; [left|right]; exact E.
      * apply orb_false_iff in Estop. destruct Estop as [Er Es].
        apply negb_false_iff in Er. apply negb_false_iff in Es.
        destruct (IH _ _ _ _ _ H) as [n [Hlog [Hn [Hpos [Hprev Hlast]]]]].
        rewrite length_app in Hprev, Hlast. simpl in Hprev, Hlast.
        exists (S n). split.
        { rewrite Hlog, <- app_assoc. reflexivity. }
        split; [lia|]. split; [lia|]. split.
        { intros [|i] Hi.
          - exists m. rewrite Nat.add_0_r. split; [exact Ep|]. split; assumption.
          - destruct (Hprev i) as [m' Hm']; [lia|].
            exists m'. replace (List.length log + S i) with (List.length log + 1 + i) by lia.
            exact Hm'. }
        replace (List.length log + S n - 1) with (List.length log + 1 + n - 1) by lia.
        destruct text as [t|]; [exact Hlast|].
        right. destruct Hlast as [[Hn0 Hle]|[m' [Hle [Hp Hwhy]]]].
        -- subst n. exists m. split; [exact Hle|].
           replace (List.length log + 1 + 0 - 1) with (List.length log) by lia.
           split; [exact Ep|]. left. lia.
        -- exists m'. split; [exact Hle|]. split; [exact Hp|].
           destruct Hwhy as [Hk|Hwhy]; [left; lia|right; exact Hwhy].
Qed.

(** Extra. The retry loop of the [performBatchOcr] worker, started with
    [lastError] unset and [k = maxRetries]:
    - it calls [provider.ocr] on the path [n <= k] times in a row, and at
      least once when [k > 0];
    - every call but the last threw an error that is retried;
    - on success the last call returned the text;
    - on failure either no call was made and [lastError] is unset, or
      [lastError] is the message of the last call. That call was the k-th,
      or [retryFailures] is off, or its message contains one of the
      no-retry patterns, case-insensitively. *)
Theorem batch_worker_attempts (k : nat) (retry : bool) (provider : Provider)
  (path : string) (log : list string) (text lastError : option string)
  (log' : list string) :
  try_ocr k retry provider path log None = (text, lastError, log') ->
  exists n, log' = log ++ repeat path n /\ n <= k /\ (0 < k -> 0 < n) /\
    (forall i, i + 1 < n -> exists m,
       provider (List.length log + i) path = Thrown m /\
       retry = true /\ shouldRetry m = true) /\
    match text with
    | Some t => provider (List.length log + n - 1) path = Text t
    | None =>
        (n = 0 /\ lastError = None) \/
        exists m, lastError = Some m /\
          provider (List.length log + n - 1) path = Thrown m /\
          (n = k \/ retry = false \/ shouldRetry m = false)
    end.
Proof. exact (try_ocr_attempts k retry provider path log None text lastError log'). Qed.

(** A provider that times out twice, then answers. *)
Definition flaky_provider : Provider :=
  fun n path => if Nat.ltb n 2 then Thrown "Request timed out" else Text path.

Lemma batch_worker_attempts_witness :
  try_ocr 3 true flaky_provider "p1.png" [] None
    = (Some "p1.png", Some "Request timed out", ["p1.png"; "p1.png"; "p1.png"]) /\
  exists n, ["p1.png"; "p1.png"; "p1.png"] = [] ++ repeat "p1.png" n /\ n <= 3 /\
    (0 < 3 -> 0 < n) /\
    (forall i, i + 1 < n -> exists m,
       flaky_provider (List.length (@nil string) + i) "p1.png" = Thrown m /\
       true = true /\ shouldRetry m = true) /\
    flaky_provider (List.length (@nil string) + n - 1) "p1.png" = Text "p1.png".
Proof.
  split; [vm_compute; reflexivity|].
  exact (batch_worker_attempts 3 true flaky_provider "p1.png" [] (Some "p1.png")
           (Some "Request timed out") ["p1.png"; "p1.png"; "p1.png"]
           ltac:(vm_compute; reflexivity)).
Defined.


Lemma filter_existing_perm (existsSync : string -> bool) (paths : list string) :
  forall fs valid fs',
  filter_existing existsSync paths fs = (valid, fs') ->
  Permutation (map fst fs ++ paths) (valid ++ map fst fs').
Proof.
  induction paths as [|path rest IH]; intros fs valid fs' H; simpl in H.
  - injection H as <- <-. rewrite app_nil_r. reflexivity.
  - destruct (existsSync path).
    + destruct (filter_existing existsSync rest fs) as [v f] eqn:E.
      injection H as <- <-. simpl.
      rewrite <- Permutation_middle. constructor. exact (IH fs v f E).
    + specialize (IH _ _ _ H). rewrite map_app, <- app_assoc in IH. exact IH.
Qed.

Lemma process_path_perm opts provider total st path st' threw :
  process_path opts provider total st path = (st', threw) ->
  Permutation (map fst (acc_results st') ++ map fst (acc_failures st'))
              (map fst (acc_results st) ++ map fst (acc_failures st) ++ [path]).
Proof.
  unfold process_path.
  destruct (try_ocr _ _ _ _ _ _) as [[text le] log'].
  intro H. destruct text as [t|];
    [|destruct (continueOnError opts); [|injection H as <- _]];
    try (apply BatchOcrProofs.report_keeps in H as (-> & -> & _)); simpl;
    rewrite map_app; simpl.
  - rewrite <- app_assoc. simpl. apply Permutation_app_head.
    apply Permutation_cons_append.
  - rewrite app_assoc. reflexivity.
  - rewrite app_assoc. reflexivity.
Qed.

Lemma run_paths_perm opts provider total paths :
  forall st st', run_paths opts provider total paths st = (st', None) ->
  Permutation (map fst (acc_results st') ++ map fst (acc_failures st'))
              (map fst (acc_results st) ++ map fst (acc_failures st) ++ paths).
Proof.
  induction paths as [|path rest IH]; intros st st' H; simpl in H.
  - injection H as <-. rewrite app_nil_r. reflexivity.
  - destruct (process_path opts provider total st path) as [st1 threw] eqn:E.
    destruct threw; [discriminate|].
    rewrite (IH _ _ H), app_assoc, (process_path_perm _ _ _ _ _ _ _ E).
    rewrite <- !app_assoc. reflexivity.
Qed.

(** Extra. When [performBatchOcr] resolves, every input path appears
    exactly once among the paths of [results] and [failures] together:
    the two lists, concatenated, are a permutation of [imagePaths] (a
    repeated input path appears as often as it is given). Hence
    [stats.successful + stats.failed = stats.total]. *)
Theorem batch_paths_accounted (provider : Provider) (existsSync : string -> bool)
  (imagePaths : list string) (opts : BatchOcrOptions) (r : BatchOcrResult)
  (calls : list string) :
  performBatchOcr provider existsSync imagePaths opts = Resolved r calls ->
  Permutation (map fst (results r) ++ map fst (failures r)) imagePaths /\
  successful (stats r) + failed (stats r) = total (stats r).
Proof.
  unfold performBatchOcr.
  destruct (filter_existing existsSync imagePaths []) as [valid fs0] eqn:Ef.
  destruct (negb (valid_concurrency (concurrency opts))); [discriminate|].
  destruct (run_paths _ _ _ _ _) as [st thrown] eqn:Er.
  destruct thrown as [p|]; [discriminate|].
  intro H; injection H as <- _. simpl.
  assert (HP : Permutation (map fst (acc_results st) ++ map fst (acc_failures st))
                           imagePaths).
  { rewrite (run_paths_perm _ _ _ _ _ _ Er). simpl.
    rewrite Permutation_app_comm.
    symmetry. exact (filter_existing_perm _ _ _ _ _ Ef). }
  split; [exact HP|].
  apply Permutation_length in HP. rewrite length_app, !length_map in HP.
  exact HP.
Qed.

Lemma batch_paths_accounted_witness :
  exists r calls,
  performBatchOcr echo_provider p2_missing
    ["p1.png"; "p2.png"; "p3.png"; "p1.png"] default_options = Resolved r calls /\
  Permutation (map fst (results r) ++ map fst (failures r))
              ["p1.png"; "p2.png"; "p3.png"; "p1.png"] /\
  successful (stats r) + failed (stats r) = total (stats r).
Proof.
  eexists. eexists. split; [vm_compute; reflexivity|].
  eapply (batch_paths_accounted echo_provider p2_missing
           ["p1.png"; "p2.png"; "p3.png"; "p1.png"] default_options).
  vm_compute. reflexivity.
Defined.

End BatchOcrWorker.

Module FolderNameProofs.
Import JsString FolderName.
Local Open Scope nat_scope.
Local Open Scope list_scope.

Local Abbreviation chars := list_ascii_of_string.

Lemma chars_rev_str (s : string) : chars (rev_str s) = rev (chars s).
Proof. unfold rev_str. apply list_ascii_of_string_of_list_ascii. Qed.

Lemma replace_class_chars p r s c :
  In c (chars (replace_class p r s)) -> c = r \/ (In c (chars s) /\ p c = false).
Proof.
  induction s as [|d s IH]; simpl; [tauto|].
  intros [H|H].
  - destruct (p d) eqn:E; [left; congruence|right; subst; split; [left|]; auto].
  - destruct (IH H) as [X|[X Y]]; [left; exact X|right; split; [right|]; auto].
Qed.

Lemma replace_class_keeps p r s c :
  In c (chars s) -> p c = false -> In c (chars (replace_class p r s)).
Proof.
  induction s as [|d s IH]; simpl; [tauto|].
  intros [H|H] Hp; [subst; rewrite Hp; left; reflexivity|right; auto].
Qed.

Lemma replace_runs_chars p r s : forall b c,
  In c (chars (replace_runs p r b s)) -> c = r \/ (In c (chars s) /\ p c = false).
Proof.
  induction s as [|d s IH]; intros b c; simpl; [tauto|].
  destruct (p d) eqn:E; [destruct b; simpl|simpl].
  - intro H. destruct (IH _ _ H) as [X|[X Y]]; [left|right]; auto.
  - intros [H|H]; [left; congruence|].
    destruct (IH _ _ H) as [X|[X Y]]; [left|right]; auto.
  - intros [H|H]; [right; subst; auto|].
    destruct (IH _ _ H) as [X|[X Y]]; [left|right]; auto.
Qed.

Lemma replace_runs_keeps p r s : forall b c,
  In c (chars s) -> p c = false -> In c (chars (replace_runs p r b s)).
Proof.
  induction s as [|d s IH]; intros b c; simpl; [tauto|].
  intros [H|H] Hp.
  - subst. rewrite Hp. left. reflexivity.
  - destruct (p d); [destruct b; [|right]|right]; apply IH; auto.
Qed.

(** No two adjacent copies of [x]. *)
Definition nodbl (x : ascii) (l : list ascii) : Prop :=
  forall i, nth_error l i = Some x -> nth_error l (S i) <> Some x.

Lemma nodbl_cons x a l :
  nodbl x l -> (a = x -> hd_error l <> Some x) -> nodbl x (a :: l).
Proof.
  intros Hl Ha [|i] H1 H2; simpl in *.
  - injection H1 as H1. apply (Ha H1). destruct l; simpl in *; congruence.
  - exact (Hl i H1 H2).
Qed.

Lemma replace_runs_nodbl p r (Hr : p r = true) s : forall b,
  nodbl r (chars (replace_runs p r b s)) /\
  (b = true -> hd_error (chars (replace_runs p r b s)) <> Some r).
Proof.
  induction s as [|d s IH]; intro b; simpl.
  - split; [intros [|i]; simpl; congruence|discriminate].
  - destruct (p d) eqn:E.
    + destruct b.
      * exact (IH true).
      * simpl. split; [|discriminate].
        apply nodbl_cons; [exact (proj1 (IH true))|].
        intros _. exact (proj2 (IH true) eq_refl).
    + simpl. split.
      * apply nodbl_cons; [exact (proj1 (IH false))|].
        intros ->. congruence.
      * intros _ H. injection H as ->. congruence.
Qed.

Lemma nodbl_infix x a t b : nodbl x (a ++ t ++ b) -> nodbl x t.
Proof.
  intros Hn i H1 H2.
  assert (Hi : S i < List.length t).
  { apply nth_error_Some. rewrite H2. discriminate. }
  apply (Hn (List.length a + i)).
  - rewrite nth_error_app2 by lia.
    replace (List.length a + i - List.length a) with i by lia.
    rewrite nth_error_app1 by lia. exact H1.
  - rewrite nth_error_app2 by lia.
    replace (S (List.length a + i) - List.length a) with (S i) by lia.
    rewrite nth_error_app1 by lia. exact H2.
Qed.

Lemma drop_while_split p s :
  exists a, chars s = a ++ chars (drop_while p s) /\ forallb p a = true /\
    match chars (drop_while p s) with c :: _ => p c = false | [] => True end.
Proof.
  induction s as [|c s IH]; simpl.
  - exists []. auto.
  - destruct (p c) eqn:E.
    + destruct IH as [a [H1 [H2 H3]]]. exists (c :: a).
      simpl. rewrite H1, E, H2. auto.
    + exists []. simpl. auto.
Qed.

Lemma trim_class_split p s :
  exists a b, chars s = a ++ chars (trim_class p s) ++ b /\
    forallb p a = true /\ forallb p b = true /\
    match chars (trim_class p s) with c :: _ => p c = false | [] => True end.
Proof.
  destruct (drop_while_split p s) as [a [Ha [Pa Hhd]]].
  set (u := drop_while p s) in *.
  destruct (drop_while_split p (rev_str u)) as [a2 [Ha2 [Pa2 _]]].
  rewrite chars_rev_str in Ha2.
  assert (Hu : chars u = chars (trim_class p s) ++ rev a2).
  { unfold trim_class. fold u. rewrite chars_rev_str.
    rewrite <- rev_app_distr, <- Ha2, rev_involutive. reflexivity. }
  exists a, (rev a2). split; [rewrite Ha, Hu; reflexivity|].
  split; [exact Pa|]. split.
  - apply forallb_forall. intros x Hx. apply in_rev in Hx.
    exact (proj1 (forallb_forall _ _) Pa2 x Hx).
  - destruct (chars (trim_class p s)) as [|c l]; [exact I|].
    rewrite Hu in Hhd. exact Hhd.
Qed.

Lemma substring_prefix (n : nat) (s : string) :
  exists b, chars s = chars (substring 0 n s) ++ b /\
    String.length (substring 0 n s) <= n /\
    (0 < n -> hd_error (chars (substring 0 n s)) = hd_error (chars s)).
Proof.
  revert s. induction n as [|n IH]; intros [|c s]; simpl.
  - exists []. auto.
  - exists (c :: chars s). split; [reflexivity|]. split; [lia|]. lia.
  - exists []. split; [reflexivity|]. split; [lia|]. reflexivity.
  - destruct (IH s) as [b [H1 [H2 _]]]. exists b.
    rewrite H1. split; [reflexivity|]. split; [lia|]. reflexivity.
Qed.

Lemma forallb_app_inv {A} (f : A -> bool) l1 l2 :
  forallb f (l1 ++ l2) = true -> forallb f l1 = true /\ forallb f l2 = true.
Proof. rewrite forallb_app. apply andb_prop. Qed.

(** Extra. [sanitizeFolderName] returns at most 200 characters. None of
    them is one of the characters less-than, greater-than, colon, double
    quote, slash, backslash, vertical bar, question mark or asterisk, and
    none is white space. No two dashes are adjacent, and the name does not
    start with a dash or an underscore. (It may end with one when the cut
    at 200 characters falls just after it.) *)
Theorem sanitizeFolderName_safe (name : string) :
  let l := chars (sanitizeFolderName name) in
  String.length (sanitizeFolderName name) <= 200 /\
  (forall c, In c l -> is_forbidden c = false /\ is_space c = false) /\
  (forall i, nth_error l i = Some "-"%char -> nth_error l (S i) <> Some "-"%char) /\
  (forall c, hd_error l = Some c -> is_dash_or_underscore c = false).
Proof.
  intro l. unfold l, sanitizeFolderName.
  set (s1 := replace_class is_forbidden "-"%char name).
  set (s2 := replace_runs is_space "_"%char false s1).
  set (s3 := replace_runs is_dash "-"%char false s2).
  set (t := trim_class is_dash_or_underscore s3).
  destruct (substring_prefix 200 t) as [b [Hb [Hlen Hhd]]].
  destruct (trim_class_split is_dash_or_underscore s3) as [a1 [b1 [Ht [_ [_ Hfirst]]]]].
  fold t in Ht, Hfirst.
  set (o := substring 0 200 t) in *.
  assert (Hin : forall c, In c (chars o) -> In c (chars s3)).
  { intros c Hc. rewrite Ht, Hb. apply in_or_app. right.
    apply in_or_app. left. apply in_or_app. left. exact Hc. }
  split; [exact Hlen|]. split; [|split].
  - intros c Hc. apply Hin in Hc.
    destruct (replace_runs_chars _ _ _ _ _ Hc) as [->|[H3 _]];
      [split; reflexivity|].
    destruct (replace_runs_chars _ _ _ _ _ H3) as [->|[H2 Hs]];
      [split; reflexivity|].
    destruct (replace_class_chars _ _ _ _ H2) as [->|[_ Hf]];
      [split; reflexivity|].
    split; assumption.
  - assert (H := proj1 (replace_runs_nodbl is_dash "-"%char eq_refl s2 false)).
    fold s3 in H. rewrite Ht, Hb, <- app_assoc in H.
    exact (nodbl_infix _ a1 _ (b ++ b1) H).
  - intros c Hc. rewrite Hhd in Hc by lia.
    destruct (chars t) as [|d l']; [discriminate|].
    simpl in Hc. injection Hc as <-. exact Hfirst.
Qed.

Lemma drop_while_all p s :
  forallb p (chars s) = true -> drop_while p s = EmptyString.
Proof.
  induction s as [|c s IH]; simpl; [reflexivity|].
  intro H. apply andb_prop in H. destruct H as [-> H]. exact (IH H).
Qed.

Lemma trim_class_empty p s :
  trim_class p s = EmptyString <-> forallb p (chars s) = true.
Proof.
  split.
  - intro H. destruct (trim_class_split p s) as [a [b [Hs [Pa [Pb _]]]]].
    rewrite H in Hs. simpl in Hs. rewrite Hs, forallb_app, Pa, Pb. reflexivity.
  - intro H. unfold trim_class. rewrite (drop_while_all p s H). reflexivity.
Qed.

(** Extra. [sanitizeFolderName] returns the empty string exactly when
    every character of the name is one of the replaced characters
    (less-than, greater-than, colon, double quote, slash, backslash,
    vertical bar, question mark, asterisk), white space, a dash or an
    underscore. Then [getRunStatePath] and [saveRunState] use no folder of
    the book. *)
Theorem sanitizeFolderName_empty (name : string) :
  sanitizeFolderName name = EmptyString <->
  forallb (fun c => is_forbidden c || is_space c || is_dash_or_underscore c)%bool
          (chars name) = true.
Proof.
  unfold sanitizeFolderName.
  set (s1 := replace_class is_forbidden "-"%char name).
  set (s2 := replace_runs is_space "_"%char false s1).
  set (s3 := replace_runs is_dash "-"%char false s2).
  set (t := trim_class is_dash_or_underscore s3).
  assert (Ho : substring 0 200 t = EmptyString <-> t = EmptyString).
  { destruct (substring_prefix 200 t) as [b [_ [_ Hhd]]].
    split; intro H.
    - rewrite H in Hhd. specialize (Hhd ltac:(lia)).
      destruct t; [reflexivity|discriminate].
    - rewrite H. reflexivity. }
  rewrite Ho. unfold t. rewrite trim_class_empty.
  rewrite !forallb_forall. split.
  - intros H3 c Hc.
    destruct (is_forbidden c) eqn:Ef; [reflexivity|].
    pose proof (replace_class_keeps is_forbidden "-"%char _ _ Hc Ef) as H1. fold s1 in H1.
    destruct (is_space c) eqn:Es; [reflexivity|].
    pose proof (replace_runs_keeps is_space "_"%char _ false _ H1 Es) as H2. fold s2 in H2.
    destruct (is_dash c) eqn:Ed.
    + unfold is_dash in Ed. unfold is_dash_or_underscore. rewrite Ed. reflexivity.
    + pose proof (replace_runs_keeps is_dash "-"%char _ false _ H2 Ed) as H3'. fold s3 in H3'.
      exact (H3 c H3').
  - intros H c Hc.
    destruct (replace_runs_chars _ _ _ _ _ Hc) as [->|[Hc2 _]]; [reflexivity|].
    destruct (replace_runs_chars _ _ _ _ _ Hc2) as [->|[Hc1 Hs]]; [reflexivity|].
    destruct (replace_class_chars _ _ _ _ Hc1) as [->|[Hn Hf]]; [reflexivity|].
    specialize (H c Hn). rewrite Hf, Hs in H. exact H.
Qed.

End FolderNameProofs.

Module TesseractBatchProofs.
Import TesseractBatch.
Local Open Scope nat_scope.
Local Open Scope list_scope.

Lemma batches_cons (l : list string) :
  l <> [] -> batches l = firstn 4 l :: batches (skipn 4 l).
Proof.
  destruct l as [|a [|b [|c [|d rest]]]]; simpl; congruence.
Qed.

Lemma all_ok_some rs ts : all_ok rs = Some ts -> rs = map Some ts.
Proof.
  revert ts. induction rs as [|[t|] rs IH]; intros ts; simpl.
  - intro H. injection H as <-. reflexivity.
  - destruct (all_ok rs) as [ts'|] eqn:E; [|discriminate].
    intro H. injection H as <-. simpl. rewrite (IH ts' eq_refl). reflexivity.
  - discriminate.
Qed.

Lemma all_ok_none rs : all_ok rs = None ->
  exists i, nth_error rs i = Some None /\
    forall j, j < i -> nth_error rs j <> Some None.
Proof.
  induction rs as [|[t|] rs IH]; simpl.
  - discriminate.
  - destruct (all_ok rs) eqn:E; [discriminate|].
    intros _. destruct (IH eq_refl) as [i [Hi Hj]].
    exists (S i). split; [exact Hi|].
    intros [|j] Hlt; simpl; [discriminate|]. apply Hj. lia.
  - intros _. exists 0. split; [reflexivity|]. intros j Hj. lia.
Qed.

Lemma run_batches_spec (ocr : Ocr) (n : nat) : forall l, List.length l <= n ->
  forall R S,
  match run_batches ocr (batches l) R S with
  | (Some texts, started) =>
      started = S ++ l /\ exists ts, texts = R ++ ts /\ map ocr l = map Some ts
  | (None, started) =>
      exists i p, nth_error l i = Some p /\ ocr p = None /\
        (forall j q, j < i -> nth_error l j = Some q -> ocr q <> None) /\
        started = S ++ firstn (4 * (i / 4) + 4) l
  end.
Proof.
  induction n as [|n IH]; intros l Hl R S.
  - destruct l; [|simpl in Hl; lia]. simpl.
    split; [rewrite app_nil_r; reflexivity|].
    exists []. rewrite app_nil_r. split; reflexivity.
  - destruct l as [|x l0] eqn:El.
    + simpl. split; [rewrite app_nil_r; reflexivity|].
      exists []. rewrite app_nil_r. split; reflexivity.
    + rewrite <- El. rewrite <- El in Hl.
      assert (Hne : l <> []) by (rewrite El; discriminate).
      rewrite (batches_cons l Hne). cbn [run_batches].
      set (bt := firstn 4 l). set (rest := skipn 4 l).
      assert (Hsplit : l = bt ++ rest) by (symmetry; apply firstn_skipn).
      assert (Hbt : List.length bt <= 4) by (unfold bt; rewrite length_firstn; lia).
      destruct (all_ok (map ocr bt)) as [ts|] eqn:Eall.
      * assert (Hrest : List.length rest <= n).
        { unfold rest. rewrite length_skipn. rewrite El in Hl |- *. simpl in *. lia. }
        pose proof (all_ok_some _ _ Eall) as Hts.
        specialize (IH rest Hrest (R ++ ts) (S ++ bt)).
        destruct (run_batches ocr (batches rest) (R ++ ts) (S ++ bt))
          as [[texts|] started].
        -- destruct IH as [Hst [ts' [Htx Hmap]]].
           split; [rewrite Hst, <- app_assoc, <- Hsplit; reflexivity|].
           exists (ts ++ ts'). split; [rewrite Htx, app_assoc; reflexivity|].
           rewrite Hsplit, !map_app, Hts, Hmap. reflexivity.
        -- destruct IH as [i [p [Hi [Hp [Hj Hst]]]]].
           assert (H4 : List.length bt = 4).
           { assert (Hr : i < List.length rest) by
               (apply nth_error_Some; rewrite Hi; discriminate).
             unfold rest in Hr. rewrite length_skipn in Hr.
             unfold bt. rewrite length_firstn. lia. }
           exists (4 + i), p. split; [|split; [exact Hp|split]].
           ++ rewrite Hsplit, nth_error_app2 by lia.
              replace (4 + i - List.length bt) with i by lia. exact Hi.
           ++ intros j q Hji Hq. rewrite Hsplit in Hq.
              destruct (Nat.lt_ge_cases j 4) as [Hj4|Hj4].
              ** rewrite nth_error_app1 in Hq by lia.
                 assert (Hm : nth_error (map ocr bt) j = Some (ocr q))
                   by (rewrite nth_error_map, Hq; reflexivity).
                 rewrite Hts, nth_error_map in Hm.
                 destruct (nth_error ts j); simpl in Hm; congruence.
              ** rewrite nth_error_app2 in Hq by lia.
                 apply (Hj (j - List.length bt)); [lia|exact Hq].
           ++ rewrite Hst, <- app_assoc. f_equal.
              replace (4 + i) with (i + 1 * 4) by lia.
              rewrite Nat.div_add by lia.
              rewrite Hsplit, firstn_app, H4.
              rewrite (firstn_all2 bt) by lia. f_equal. f_equal. lia.
      * destruct (all_ok_none _ Eall) as [i [Hi Hj]].
        rewrite nth_error_map in Hi.
        destruct (nth_error bt i) as [p|] eqn:Ep; [|discriminate].
        simpl in Hi. injection Hi as Hp.
        assert (Hib : i < List.length bt)
          by (apply nth_error_Some; rewrite Ep; discriminate).
        exists i, p. split; [|split; [exact Hp|split]].
        -- rewrite Hsplit, nth_error_app1 by lia. exact Ep.
        -- intros j q Hji Hq Hn.
           rewrite Hsplit, nth_error_app1 in Hq by lia.
           apply (Hj j Hji). rewrite nth_error_map, Hq. simpl. rewrite Hn. reflexivity.
        -- rewrite Nat.div_small by lia. reflexivity.
Qed.

(** Extra. [ocrBatch] processes the images in chunks of 4 and stops at
    the first chunk with a failure:
    - it resolves exactly when every image is recognised; then every path
      was passed to [ocr] once, in order, and the texts are in input
      order;
    - otherwise let [i] be the index of the first failing image. The
      paths passed to [ocr] are then exactly the chunks up to and
      including the one of [i]; later images are never recognised. *)
Theorem ocrBatch_chunks (ocr : Ocr) (imagePaths : list string) :
  match ocrBatch ocr imagePaths with
  | (Some texts, started) =>
      started = imagePaths /\ map ocr imagePaths = map Some texts
  | (None, started) =>
      exists i p, nth_error imagePaths i = Some p /\ ocr p = None /\
        (forall j q, j < i -> nth_error imagePaths j = Some q -> ocr q <> None) /\
        started = firstn (4 * (i / 4) + 4) imagePaths
  end.
Proof.
  pose proof (run_batches_spec ocr (List.length imagePaths) imagePaths
                (le_n _) [] []) as H.
  unfold ocrBatch.
  destruct (run_batches ocr (batches imagePaths) [] []) as [[texts|] started].
  - destruct H as [Hst [ts [Htx Hmap]]]. simpl in Hst, Htx. subst. auto.
  - exact H.
Qed.

End TesseractBatchProofs.

Module FormatTimeProofs.
Import FormatTime.
Local Open Scope string_scope.
Local Open Scope Z_scope.

Definition is_digit (c : ascii) : bool :=
  (Nat.leb 48 (nat_of_ascii c) && Nat.leb (nat_of_ascii c) 57)%bool.

Lemma digits_sep (d1 d2 : Decimal.uint) (c1 c2 : ascii) (r1 r2 : string) :
  is_digit c1 = false -> is_digit c2 = false ->
  string_of_uint d1 ++ String c1 r1 = string_of_uint d2 ++ String c2 r2 ->
  d1 = d2 /\ c1 = c2 /\ r1 = r2.
Proof.
  intros Hc1 Hc2. revert d2.
  induction d1; intros d2 H; destruct d2; simpl in H;
    first
    [ solve [injection H as -> ->; auto]
    | solve [injection H as H'; destruct (IHd1 _ H') as [-> [-> ->]]; auto]
    | discriminate H
    | injection H as E _; subst; vm_compute in Hc1; discriminate Hc1
    | injection H as E _; subst; vm_compute in Hc2; discriminate Hc2 ].
Qed.

(** The digits of a non-negative integer. *)
Definition udigits (n : Z) : Decimal.uint :=
  match n with
  | Zpos p => Pos.to_uint p
  | _ => Decimal.D0 Decimal.Nil
  end.

Lemma to_dec_nonneg n : 0 <= n -> to_dec n = string_of_uint (udigits n).
Proof. destruct n; simpl; [reflexivity|reflexivity|lia]. Qed.

Lemma udigits_inj a b : 0 <= a -> 0 <= b -> udigits a = udigits b -> a = b.
Proof.
  destruct a as [|p|p], b as [|q|q]; simpl; intros Ha Hb H; try lia.
  - exfalso. exact (DecimalPos.Unsigned.to_uint_nonzero q (eq_sym H)).
  - exfalso. exact (DecimalPos.Unsigned.to_uint_nonzero p H).
  - rewrite (DecimalPos.Unsigned.to_uint_inj p q H). reflexivity.
Qed.

(** Two non-negative numbers followed by the same kind of separator. *)
Lemma dec_sep a b c1 c2 r1 r2 :
  0 <= a -> 0 <= b -> is_digit c1 = false -> is_digit c2 = false ->
  to_dec a ++ String c1 r1 = to_dec b ++ String c2 r2 ->
  a = b /\ c1 = c2 /\ r1 = r2.
Proof.
  intros Ha Hb Hc1 Hc2 H.
  rewrite !to_dec_nonneg in H by assumption.
  destruct (digits_sep _ _ _ _ _ _ Hc1 Hc2 H) as [Hd [-> ->]].
  split; [exact (udigits_inj a b Ha Hb Hd)|auto].
Qed.

(** [formatTime] as the three parts of the whole seconds; the cases are
    told apart by the separator after the first number. *)
Lemma formatTime_shape (ms : Z) : 0 <= ms ->
  let s := ms / 1000 in
  (0 < s / 60 / 60 /\ formatTime ms =
     to_dec (s / 60 / 60) ++ String "h" (" " ++ to_dec (s / 60 mod 60) ++
       String "m" (" " ++ to_dec (s mod 60) ++ String "s" EmptyString))) \/
  (s / 60 / 60 = 0 /\ 0 < s / 60 /\ formatTime ms =
     to_dec (s / 60) ++ String "m" (" " ++ to_dec (s mod 60) ++ String "s" EmptyString)) \/
  (s / 60 = 0 /\ formatTime ms = to_dec s ++ String "s" EmptyString).
Proof.
  intros Hms s.
  assert (Hs : 0 <= s) by (apply Z.div_pos; lia).
  assert (Hm : 0 <= s / 60) by (apply Z.div_pos; lia).
  assert (Hh : 0 <= s / 60 / 60) by (apply Z.div_pos; lia).
  unfold formatTime. fold s.
  rewrite (Z.rem_mod_nonneg (s / 60) 60 Hm ltac:(lia)).
  rewrite (Z.rem_mod_nonneg s 60 Hs ltac:(lia)).
  destruct (Z.ltb_spec 0 (s / 60 / 60)).
  - left. split; [assumption|reflexivity].
  - destruct (Z.ltb_spec 0 (s / 60)).
    + right; left. split; [lia|]. split; [assumption|reflexivity].
    + right; right. split; [lia|reflexivity].
Qed.

(** Extra. For whole numbers of milliseconds [a] and [b] between 0 and
    10^12, [formatTime a] and [formatTime b] are the same string exactly
    when [a] and [b] have the same number of whole seconds: the printed
    hours, minutes and seconds lose only the milliseconds. *)
Theorem formatTime_same_seconds (a b : Z) :
  0 <= a <= 10 ^ 12 -> 0 <= b <= 10 ^ 12 ->
  (formatTime a = formatTime b <-> a / 1000 = b / 1000).
Proof.
  intros Ha Hb. split; [|intro E; unfold formatTime; rewrite E; reflexivity].
  assert (Hsa : 0 <= a / 1000) by (apply Z.div_pos; lia).
  assert (Hsb : 0 <= b / 1000) by (apply Z.div_pos; lia).
  set (x := a / 1000) in *. set (y := b / 1000) in *.
  assert (Ex := Z.div_mod x 60 ltac:(lia)).
  assert (Ey := Z.div_mod y 60 ltac:(lia)).
  assert (Exm := Z.div_mod (x / 60) 60 ltac:(lia)).
  assert (Eym := Z.div_mod (y / 60) 60 ltac:(lia)).
  assert (Hxm := Z.mod_pos_bound x 60 ltac:(lia)).
  assert (Hym := Z.mod_pos_bound y 60 ltac:(lia)).
  assert (Hxmm := Z.mod_pos_bound (x / 60) 60 ltac:(lia)).
  assert (Hymm := Z.mod_pos_bound (y / 60) 60 ltac:(lia)).
  assert (Hx1 : 0 <= x / 60) by (apply Z.div_pos; lia).
  assert (Hy1 : 0 <= y / 60) by (apply Z.div_pos; lia).
  assert (Hx2 : 0 <= x / 60 / 60) by (apply Z.div_pos; lia).
  assert (Hy2 : 0 <= y / 60 / 60) by (apply Z.div_pos; lia).
  pose proof (formatTime_shape a ltac:(lia)) as Sa.
  pose proof (formatTime_shape b ltac:(lia)) as Sb.
  cbv zeta in Sa, Sb. fold x in Sa. fold y in Sb.
  assert (Dh : is_digit "h"%char = false) by reflexivity.
  assert (Dm : is_digit "m"%char = false) by reflexivity.
  assert (Ds : is_digit "s"%char = false) by reflexivity.
  intro E.
  destruct Sa as [[Pa Fa]|[[Pa [Qa Fa]]|[Pa Fa]]];
  destruct Sb as [[Pb Fb]|[[Pb [Qb Fb]]|[Pb Fb]]];
  rewrite Fa, Fb in E.
  - destruct (dec_sep _ _ _ _ _ _ Hx2 Hy2 Dh Dh E) as [E1 [_ R1]].
    injection R1 as R1.
    destruct (dec_sep (x / 60 mod 60) (y / 60 mod 60) _ _ _ _
                ltac:(lia) ltac:(lia) Dm Dm R1) as [E2 [_ R2]].
    injection R2 as R2.
    destruct (dec_sep (x mod 60) (y mod 60) _ _ _ _
                ltac:(lia) ltac:(lia) Ds Ds R2) as [E3 _].
    lia.
  - destruct (dec_sep _ _ _ _ _ _ Hx2 Hy1 Dh Dm E) as [_ [C _]]. discriminate C.
  - destruct (dec_sep _ _ _ _ _ _ Hx2 Hsb Dh Ds E) as [_ [C _]]. discriminate C.
  - destruct (dec_sep _ _ _ _ _ _ Hx1 Hy2 Dm Dh E) as [_ [C _]]. discriminate C.
  - destruct (dec_sep _ _ _ _ _ _ Hx1 Hy1 Dm Dm E) as [E1 [_ R1]].
    injection R1 as R1.
    destruct (dec_sep (x mod 60) (y mod 60) _ _ _ _
                ltac:(lia) ltac:(lia) Ds Ds R1) as [E2 _].
    lia.
  - destruct (dec_sep _ _ _ _ _ _ Hx1 Hsb Dm Ds E) as [_ [C _]]. discriminate C.
  - destruct (dec_sep _ _ _ _ _ _ Hsa Hy2 Ds Dh E) as [_ [C _]]. discriminate C.
  - destruct (dec_sep _ _ _ _ _ _ Hsa Hy1 Ds Dm E) as [_ [C _]]. discriminate C.
  - destruct (dec_sep _ _ _ _ _ _ Hsa Hsb Ds Ds E) as [E1 _]. exact E1.
Qed.

Lemma formatTime_same_seconds_witness :
  formatTime 3725400 = "1h 2m 5s" /\
  (formatTime 3725400 = formatTime 3725999 <-> 3725400 / 1000 = 3725999 / 1000).
Proof.
  split; [vm_compute; reflexivity|].
  apply formatTime_same_seconds; lia.
Defined.

End FormatTimeProofs.
